(** * GraphQL transform: key/index builder, template reference walk and
      read-authorization gate

    A shallow embedding of three parts of the transform packages:
    - [getTemplateReferences] / [walk] / [mergeReferenceMaps]
      (graphql-transformer-core, util/getTemplateReferences);
    - the [@key] transformer (graphql-key-transformer, KeyTransformer.ts);
    - [throwIfUnauthorizedForReadOperations] (graphql-auth-transformer,
      resources.ts).

    together with [blankNestedTemplate] (graphql-transformer-core,
    util/blankNestedTemplate.ts).

    JavaScript objects that are used as dictionaries are finite maps of
    their own properties with string keys; a read of a key that a plain
    object does not own goes to [Object.prototype] (see [inherited]).  Arrays
    are lists; [undefined] is [None] where a value may be missing.  A thrown
    exception is the [Err] result. *)

From stdpp Require Import gmap strings list fin_maps pretty.

Local Set Warnings "-register-all,-clear-no-such-hyp".
Local Open Scope string_scope.
Local Open Scope list_scope.

(** ** Exceptions *)

Inductive Error :=
| InvalidDirectiveError (message : string)
| TypeError
| ExternalError (message : string).

Inductive Result (A : Type) :=
| Ok (a : A)
| Err (e : Error).
Arguments Ok {A} a.
Arguments Err {A} e.

(** ** JavaScript values of a template tree *)

Module Js.

(** The nodes of a template after [toJSON]: the walk calls [toJSON] on a node
    that has it and goes on with the result, so the tree is given in that
    form.  Numbers are integers.  The fields of [JObj] are in the order of
    [Object.keys]. *)
Inductive json :=
| JUndefined
| JNull
| JBool (b : bool)
| JNum (n : Z)
| JStr (s : string)
| JArr (items : list json)
| JObj (fields : list (string * json)).

(** [o[k]] for the own property [k] of an object. *)
Fixpoint obj_get (k : string) (fields : list (string * json)) : option json :=
  match fields with
  | [] => None
  | (k', v) :: rest => if decide (k' = k) then Some v else obj_get k rest
  end.

(** The value of a property read: a missing property reads [undefined]. *)
Definition prop (k : string) (fields : list (string * json)) : json :=
  default JUndefined (obj_get k fields).

(** [if (v)]. *)
Definition truthy (v : json) : bool :=
  match v with
  | JUndefined | JNull => false
  | JBool b => b
  | JNum n => negb (n =? 0)%Z
  | JStr s => negb (String.eqb s EmptyString)
  | JArr _ | JObj _ => true
  end.

(** [String(v)], which a computed property key [{[v]: ...}] applies. *)
Fixpoint to_string (v : json) : string :=
  match v with
  | JUndefined => "undefined"
  | JNull => "null"
  | JBool true => "true"
  | JBool false => "false"
  | JNum n => pretty n
  | JStr s => s
  | JArr items =>
      String.concat ","
        (map (fun x => match x with
                       | JUndefined | JNull => EmptyString
                       | _ => to_string x
                       end) items)
  | JObj _ => "[object Object]"
  end.

(** [v[0]] for a truthy [v]. *)
Definition index0 (v : json) : json :=
  match v with
  | JArr items => hd JUndefined items
  | JStr (String c _) => JStr (String c EmptyString)
  | JObj fields => prop "0" fields
  | _ => JUndefined
  end.

(** The property names a plain object inherits from [Object.prototype].  Each
    of them holds a function or an object: a value that is truthy and has no
    [concat] method. *)
Definition objectPrototype : list string :=
  [ "constructor"; "__defineGetter__"; "__defineSetter__"; "hasOwnProperty";
    "__lookupGetter__"; "__lookupSetter__"; "isPrototypeOf"; "propertyIsEnumerable";
    "toString"; "valueOf"; "__proto__"; "toLocaleString" ].

(** [k] is not an own property of a plain object but is read from its
    prototype. *)
Definition inherited (k : string) : bool := bool_decide (k ∈ objectPrototype).

End Js.
Import Js.

(** ** Reference maps *)

(** [interface ReferenceMap { [referenceId: string]: string[][] }] *)
Abbreviation ReferenceMap := (gmap string (list (list string))).

(** [mergeReferenceMaps(a, b)]: the loop over [Object.keys(b)] writes into
    [a], and [a] is returned; the returned value is the final [a].  The maps
    are plain objects and a map holds its own keys.  An own key of [a] holds
    an array, which is truthy.  For a key that [a] does not own, [a[bKey]]
    reads the prototype: it is [undefined] for most names, but for a name of
    [Object.prototype] it is a truthy value without [concat], and the call
    [a[bKey].concat(...)] throws a [TypeError]. *)
Definition mergeReferenceMaps (a b : ReferenceMap) : Result ReferenceMap :=
  map_fold (fun bKey bVal (r : Result ReferenceMap) =>
              match r with
              | Ok a =>
                  match a !! bKey with
                  | Some aVal => Ok (<[bKey := aVal ++ bVal]> a)
                  | None =>
                      if inherited bKey then Err TypeError
                      else Ok (<[bKey := bVal]> a)
                  end
              | Err e => Err e
              end) (Ok a) b.

(** The reference recorded at an object node, if the node is taken as one:
    [jsonNode["Ref"]] when truthy, else the first component of
    [jsonNode["Fn::GetAtt"]] when that is truthy. *)
Definition referenceOf (fields : list (string * json)) : option string :=
  let refValue := prop "Ref" fields in
  let getAtt := prop "Fn::GetAtt" fields in
  if truthy refValue then Some (to_string refValue)
  else if truthy getAtt then Some (to_string (index0 getAtt))
  else None.

(** [walk(node, path)].  [typeof] is ['object'] for [null], for arrays and
    for objects.  Reading [null["Ref"]] throws, and so does a merge (see
    [mergeReferenceMaps]).  An array has no [Ref] and no
    [Fn::GetAtt] property and its [Object.keys] are its indices, so it is
    walked by the first branch; the [Array.isArray] branch is never reached. *)
Fixpoint walk (node : json) (path : list string) : Result ReferenceMap :=
  match node with
  | JNull => Err TypeError
  | JObj fields =>
      match referenceOf fields with
      | Some r => Ok {[ r := [path] ]}
      | None =>
          (fix keys (fs : list (string * json)) (refsFromAllKeys : ReferenceMap) :=
             match fs with
             | [] => Ok refsFromAllKeys
             | (key, v) :: rest =>
                 match walk v (path ++ [key]) with
                 | Ok refsForKey =>
                     match mergeReferenceMaps refsFromAllKeys refsForKey with
                     | Ok refsFromAllKeys => keys rest refsFromAllKeys
                     | Err e => Err e
                     end
                 | Err e => Err e
                 end
             end) fields ∅
      end
  | JArr items =>
      (fix keys (ns : list json) (i : nat) (refsFromAllKeys : ReferenceMap) :=
         match ns with
         | [] => Ok refsFromAllKeys
         | n :: rest =>
             match walk n (path ++ [pretty i]) with
             | Ok refsForKey =>
                 match mergeReferenceMaps refsFromAllKeys refsForKey with
                 | Ok refsFromAllKeys => keys rest (S i) refsFromAllKeys
                 | Err e => Err e
                 end
             | Err e => Err e
             end
         end) items 0 ∅
  | _ => Ok ∅
  end.

Definition getTemplateReferences (template : json) : Result ReferenceMap :=
  walk template [].

(** ** Mapping-template expressions *)

Module Vtl.

(** Modelled from the spec: the Expression tree of graphql-mapping-template,
    which is not among the sources.  The spec describes it as a tagged variant
    of literals, references, conditionals, assignments and compound blocks
    that is built by the plugins and printed to text.  One constructor stands
    for each builder function the two transformers call, with that function's
    name and arguments; the third argument of [iff] is its [inline] flag
    (absent means [false]). *)
Inductive Expression :=
| obj (o : list (string * Expression))
| str (value : string)
| ref (value : string)
| raw (value : string)
| qref (value : string)
| set (key value : Expression)
| iff (predicate expr : Expression) (inline : bool)
| compoundExpression (expressions : list Expression)
| newline
| block (name : string) (exprs : list Expression)
| not (expr : Expression)
| parens (expr : Expression)
| or (expressions : list Expression)
| equals (leftExpr rightExpr : Expression).

End Vtl.
Export Vtl (Expression).

(** An object literal [{ [k1]: v1, [k2]: v2, ... }]: a key that comes again
    keeps its place and takes the later value. *)
Fixpoint js_set {A} (k : string) (v : A) (o : list (string * A)) : list (string * A) :=
  match o with
  | [] => [(k, v)]
  | (k', v') :: rest =>
      if decide (k' = k) then (k', v) :: rest else (k', v') :: js_set k v rest
  end.

Definition js_object {A} (entries : list (string * A)) : list (string * A) :=
  foldl (fun o kv => js_set kv.1 kv.2 o) [] entries.

(** [String(x)] of a string that may be [undefined]. *)
Definition show (x : option string) : string := default "undefined" x.

(** [Boolean(x)] of a string that may be [undefined]. *)
Definition truthy_string (x : option string) : bool :=
  match x with
  | Some s => negb (String.eqb s EmptyString)
  | None => false
  end.

Definition nl : string := String (Ascii.ascii_of_nat 10) EmptyString.

(** ** GraphQL schema nodes *)

Inductive TypeNode :=
| NamedType (name : string)
| ListType (type : TypeNode)
| NonNullType (type : TypeNode).

Record InputValueDefinitionNode := {
  iv_name : string;
  iv_type : TypeNode;
}.

Record FieldDefinitionNode := {
  fd_name : string;
  fd_arguments : list InputValueDefinitionNode;
  fd_type : TypeNode;
}.

(** [interface KeyArguments] *)
Record KeyArguments := {
  name : option string;
  fields : list string;
  queryField : option string;
}.

(** A directive node.  [dir_ref] is the identity of the node object, which
    [validate] compares with [!==]; [dir_arguments] is what
    [getDirectiveArguments] returns for it (the transformer reads it for
    [@key] directives only). *)
Record DirectiveNode := {
  dir_ref : nat;
  dir_name : string;
  dir_arguments : KeyArguments;
}.

Record ObjectTypeDefinitionNode := {
  def_name : string;
  def_fields : list FieldDefinitionNode;
  def_directives : list DirectiveNode;
}.

Record InputObjectTypeDefinitionNode := {
  in_name : string;
  in_fields : list InputValueDefinitionNode;
}.

(** The type definitions the context holds, by [kind]. *)
Inductive TypeDefinitionNode :=
| ObjectTypeDefinition (node : ObjectTypeDefinitionNode)
| InputObjectTypeDefinition (node : InputObjectTypeDefinitionNode)
| EnumTypeDefinition (name : string)
| OtherTypeDefinition (name : string).

Definition td_name (t : TypeDefinitionNode) : string :=
  match t with
  | ObjectTypeDefinition o => def_name o
  | InputObjectTypeDefinition i => in_name i
  | EnumTypeDefinition n | OtherTypeDefinition n => n
  end.

(** Modelled from the spec: [getBaseType], [isNonNullType], [makeNamedType],
    [makeNonNullType] and [makeInputValueDefinition] of
    graphql-transformer-common are not among the sources.  The spec speaks of
    a field's base scalar, of nullable and non-null types and of arguments
    typed by a base scalar: the base type is the name under the list and
    non-null wrappers, and the makers build the node of their name. *)
Fixpoint getBaseType (type : TypeNode) : string :=
  match type with
  | NamedType n => n
  | ListType t | NonNullType t => getBaseType t
  end.

(** Modelled from the spec: [isNonNullType] of graphql-transformer-common is
    not among the sources; a non-null type is one under the non-null
    wrapper. *)
Definition isNonNullType (type : TypeNode) : bool :=
  match type with
  | NonNullType _ => true
  | _ => false
  end.

(** Modelled from the spec: [makeNamedType] of graphql-transformer-common is
    not among the sources; it builds the named type, which is nullable. *)
Definition makeNamedType (name : string) : TypeNode := NamedType name.

(** Modelled from the spec: [makeNonNullType] of graphql-transformer-common
    is not among the sources; it wraps a type as non-null, that is
    required. *)
Definition makeNonNullType (type : TypeNode) : TypeNode := NonNullType type.

(** Modelled from the spec: [makeInputValueDefinition] of
    graphql-transformer-common is not among the sources; it builds the
    argument of a name and a type. *)
Definition makeInputValueDefinition (name : string) (type : TypeNode) : InputValueDefinitionNode :=
  {| iv_name := name; iv_type := type |}.

(** [definition.fields.find(field => field.name.value === name)] *)
Definition findField (fs : list FieldDefinitionNode) (name : string) : option FieldDefinitionNode :=
  List.find (fun field => String.eqb (fd_name field) name) fs.

(** [fieldMap]: a [Map] filled by [fieldMap.set(field.name.value, field)] for
    each field in turn, so a later field of the same name replaces an earlier
    one. *)
Definition fieldMap (fs : list FieldDefinitionNode) : gmap string FieldDefinitionNode :=
  foldl (fun m field => <[fd_name field := field]> m) ∅ fs.

(** ** Resources *)

Inductive KeyType := HASH | RANGE.

(** An entry of a [KeySchema].  [keySchema] writes [args.fields[0]] as the
    name, which is [undefined] for an empty field list. *)
Record KeySchemaElement := {
  ks_AttributeName : option string;
  ks_KeyType : KeyType;
}.

Record AttributeDefinition := {
  ad_AttributeName : string;
  ad_AttributeType : string;
}.

(** [LocalSecondaryIndex] and [GlobalSecondaryIndex]; a local index has no
    [ProvisionedThroughput]. *)
Record SecondaryIndex := {
  IndexName : option string;
  ix_KeySchema : list KeySchemaElement;
  ProjectionType : string;
  ProvisionedThroughput : option json;
}.

(** The properties of a resource that the transformer reads or writes; a
    property the resource does not have is [None]. *)
Record ResourceProperties := {
  KeySchema : option (list KeySchemaElement);
  AttributeDefinitions : option (list AttributeDefinition);
  LocalSecondaryIndexes : option (list SecondaryIndex);
  GlobalSecondaryIndexes : option (list SecondaryIndex);
  ApiId : option json;
  DataSourceName : option json;
  FieldName : option string;
  TypeName : option string;
  RequestMappingTemplate : option string;
  ResponseMappingTemplate : option string;
}.

Record Resource := {
  Properties : ResourceProperties;
}.

(** ** The compilation context *)

(** Modelled from the spec: [TransformerContext] of graphql-transformer-core
    is not among the sources.  By the spec its resources and types are stores
    keyed by name, every mutation is last-writer-wins on its key, and a type
    is mapped to a stack by a resource id pattern: the stack mapping holds,
    for a pattern, the type it was last mapped to. *)
Record TransformerContext := {
  resources : gmap string Resource;
  nodeMap : gmap string TypeDefinitionNode;
  queryTypeName : string;
  stackMapping : gmap string string;
}.

(** A computation on the context: the context is one shared mutable object,
    so what was written before an exception stays written. *)
Definition M (A : Type) : Type :=
  TransformerContext -> TransformerContext * Result A.

Definition ret {A} (a : A) : M A := fun ctx => (ctx, Ok a).
Definition throw {A} (e : Error) : M A := fun ctx => (ctx, Err e).
Definition bind {A B} (m : M A) (k : A -> M B) : M B :=
  fun ctx =>
    match m ctx with
    | (ctx', Ok a) => k a ctx'
    | (ctx', Err e) => (ctx', Err e)
    end.
Definition lift {A} (r : Result A) : M A := fun ctx => (ctx, r).
Definition reads {A} (f : TransformerContext -> A) : M A := fun ctx => (ctx, Ok (f ctx)).

Notation "'let*' x ':=' m 'in' k" := (bind m (fun x => k))
  (at level 10, x name, m at level 100, k at level 200, only parsing).
Notation "m ';;' k" := (bind m (fun _ => k))
  (at level 100, k at level 200, right associativity, only parsing).

(** Sequencing of results that use no context. *)
Definition rbind {A B} (r : Result A) (k : A -> Result B) : Result B :=
  match r with
  | Ok a => k a
  | Err e => Err e
  end.

(** [xs.map(f)] for an [f] that may throw. *)
Fixpoint mapR {A B} (f : A -> Result B) (xs : list A) : Result (list B) :=
  match xs with
  | [] => Ok []
  | x :: rest => rbind (f x) (fun y => rbind (mapR f rest) (fun ys => Ok (y :: ys)))
  end.

(** Modelled from the spec: [ctx.getResource], [get_resource(id) ->
    Resource?]. *)
Definition getResource (id : string) : M (option Resource) :=
  reads (fun ctx => resources ctx !! id).

(** Modelled from the spec: [ctx.setResource], [set_resource(id, Resource)],
    last writer wins. *)
Definition setResource (id : string) (r : Resource) : M unit :=
  fun ctx =>
    ({| resources := <[id := r]> (resources ctx); nodeMap := nodeMap ctx;
        queryTypeName := queryTypeName ctx; stackMapping := stackMapping ctx |}, Ok tt).

(** [getResource] returns the stored object itself, so an assignment to one
    of its properties is a write to the store. *)
Definition writeResource (id : string) (r : Resource) : M unit := setResource id r.

(** Modelled from the spec: [ctx.getType], [get_type(name) -> SchemaType?]. *)
Definition getType (name : string) : M (option TypeDefinitionNode) :=
  reads (fun ctx => nodeMap ctx !! name).

(** Modelled from the spec: [ctx.putType], [put_type(SchemaType)], which
    replaces by name. *)
Definition putType (t : TypeDefinitionNode) : M unit :=
  fun ctx =>
    ({| resources := resources ctx; nodeMap := <[td_name t := t]> (nodeMap ctx);
        queryTypeName := queryTypeName ctx; stackMapping := stackMapping ctx |}, Ok tt).

(** Modelled from the spec: [ctx.addInput], [add_input(InputType)]; the
    transformer calls it for a name the context does not have. *)
Definition addInput (i : InputObjectTypeDefinitionNode) : M unit :=
  putType (InputObjectTypeDefinition i).

(** Modelled from the spec: [ctx.getQueryTypeName], the name of the query
    type. *)
Definition getQueryTypeName : M string := reads queryTypeName.

(** Modelled from the spec: [ctx.getQuery], [get_query_type()], the type
    stored under the name of the query type. *)
Definition getQuery : M (option TypeDefinitionNode) :=
  reads (fun ctx => nodeMap ctx !! queryTypeName ctx).

(** Modelled from the spec: [ctx.addToStackMapping],
    [map_type_to_stack(type_name, resource_id_pattern)], last writer wins:
    a pattern that is mapped again is mapped to the later type only. *)
Definition addToStackMapping (typeName pattern : string) : M unit :=
  fun ctx =>
    ({| resources := resources ctx; nodeMap := nodeMap ctx;
        queryTypeName := queryTypeName ctx;
        stackMapping := <[pattern := typeName]> (stackMapping ctx) |}, Ok tt).

(** [x.fields] of a type definition read as an object type: a node of
    another kind is outside the declared type of the read. *)
Definition asObject (t : option TypeDefinitionNode) : Result ObjectTypeDefinitionNode :=
  match t with
  | Some (ObjectTypeDefinition o) => Ok o
  | _ => Err TypeError
  end.

(** ** What the key transformer imports *)

(** The functions and constants of graphql-transformer-common and
    graphql-mapping-template that the transformer calls and that are not among
    the sources.  They are parameters of the development. *)
Class External := {
  (** [attributeTypeFromScalar(type)]: the DynamoDB attribute type of a
      scalar; it throws for a type it does not know. *)
  attributeTypeFromScalar : TypeNode -> Result string;
  (** [ModelResourceIDs] *)
  ModelTableResourceID : string -> string;
  ModelTableDataSourceID : string -> string;
  ModelCreateInputObjectName : string -> string;
  ModelUpdateInputObjectName : string -> string;
  ModelDeleteInputObjectName : string -> string;
  ModelKeyConditionInputTypeName : string -> string;
  (** [ResolverResourceIDs] *)
  DynamoDBGetResolverResourceID : string -> string;
  DynamoDBListResolverResourceID : string -> string;
  DynamoDBCreateResolverResourceID : string -> string;
  DynamoDBUpdateResolverResourceID : string -> string;
  DynamoDBDeleteResolverResourceID : string -> string;
  ResolverResourceID : string -> string -> string;
  (** [ResourceConstants] *)
  ShouldUsePayPerRequestBilling : string;
  DynamoDBModelTableReadIOPS : string;
  DynamoDBModelTableWriteIOPS : string;
  GraphQLAPILogicalID : string;
  ModelObjectKey : string;
  ModelQueryExpression : string;
  (** schema and template builders *)
  makeConnectionField :
    string -> string -> list InputValueDefinitionNode -> FieldDefinitionNode;
  makeScalarKeyConditionForType : TypeNode -> Result InputObjectTypeDefinitionNode;
  applyKeyExpressionForCompositeKey :
    list string -> list string -> string -> Expression;
  (** the printer *)
  print : Expression -> string;
  printBlock : string -> Expression -> string;
}.

(** ** The key transformer *)

Section KeyTransformer.
Context `{External}.

Definition condenseRangeKey (fs : list string) : string := String.concat "#" fs.

(** [keySchema(args)]; [args.fields.slice(1)] is the tail. *)
Definition keySchema (args : KeyArguments) : list KeySchemaElement :=
  if (1 <? length (fields args))%nat then
    let condensedSortKey := condenseRangeKey (tail (fields args)) in
    [ {| ks_AttributeName := head (fields args); ks_KeyType := HASH |};
      {| ks_AttributeName := Some condensedSortKey; ks_KeyType := RANGE |} ]
  else
    [ {| ks_AttributeName := head (fields args); ks_KeyType := HASH |} ].

Definition attributeTypeFromType (type : TypeNode) (ctx : TransformerContext) : Result string :=
  let baseTypeName := getBaseType type in
  match nodeMap ctx !! baseTypeName with
  | Some (EnumTypeDefinition _) => Ok "S"
  | _ => attributeTypeFromScalar type
  end.

(** [fieldMap.get(name).type]: reading [type] of [undefined] throws. *)
Definition typeOfField (m : gmap string FieldDefinitionNode) (name : string) : Result TypeNode :=
  match m !! name with
  | Some field => Ok (fd_type field)
  | None => Err TypeError
  end.

(** [attributeDefinitions(args, def, ctx)].  The cases are those of
    [args.fields.length]: more than two, two, and otherwise one or none.  With
    no field, [args.fields[0]] is [undefined], the map has no entry for it and
    reading [type] throws. *)
Definition attributeDefinitions (args : KeyArguments) (def : ObjectTypeDefinitionNode)
    (ctx : TransformerContext) : Result (list AttributeDefinition) :=
  let fieldMap := fieldMap (def_fields def) in
  match fields args with
  | hashName :: _ :: _ :: _ =>
      let condensedSortKey := condenseRangeKey (tail (fields args)) in
      rbind (typeOfField fieldMap hashName) (fun hashType =>
      rbind (attributeTypeFromType hashType ctx) (fun hashAttr =>
      Ok [ {| ad_AttributeName := hashName; ad_AttributeType := hashAttr |};
           {| ad_AttributeName := condensedSortKey; ad_AttributeType := "S" |} ]))
  | [hashName; sortName] =>
      rbind (typeOfField fieldMap hashName) (fun hashType =>
      rbind (attributeTypeFromType hashType ctx) (fun hashAttr =>
      rbind (typeOfField fieldMap sortName) (fun sortType =>
      rbind (attributeTypeFromType sortType ctx) (fun sortAttr =>
      Ok [ {| ad_AttributeName := hashName; ad_AttributeType := hashAttr |};
           {| ad_AttributeName := sortName; ad_AttributeType := sortAttr |} ]))))
  | [fieldName] =>
      rbind (typeOfField fieldMap fieldName) (fun fieldType =>
      rbind (attributeTypeFromType fieldType ctx) (fun fieldAttr =>
      Ok [ {| ad_AttributeName := fieldName; ad_AttributeType := fieldAttr |} ]))
  | [] => Err TypeError
  end.

Definition append {T} (maybeList : option (list T)) (item : T) : list T :=
  match maybeList with
  | Some l => l ++ [item]
  | None => [item]
  end.

Definition getPrimaryKey (obj : ObjectTypeDefinitionNode) : option DirectiveNode :=
  List.find (fun directive =>
               String.eqb (dir_name directive) "key"
               && negb (truthy_string (name (dir_arguments directive))))
            (def_directives obj).

Definition isPrimaryKey (directive : DirectiveNode) : bool :=
  negb (truthy_string (name (dir_arguments directive))).

(** [otherDirective !== directive] *)
Definition isOther (otherDirective directive : DirectiveNode) : bool :=
  negb (dir_ref otherDirective =? dir_ref directive)%nat.

Definition keyDirectives (definition : ObjectTypeDefinitionNode) : list DirectiveNode :=
  filter (fun d => dir_name d = "key") (def_directives definition).

(** The loop over [directiveArgs.fields] of [validate]. *)
Fixpoint validateFields (definition : ObjectTypeDefinitionNode) (directiveArgs : KeyArguments)
    (ctx : TransformerContext) (m : gmap string FieldDefinitionNode)
    (fs : list string) : Result unit :=
  match fs with
  | [] => Ok tt
  | fieldName :: rest =>
      match m !! fieldName with
      | None =>
          Err (InvalidDirectiveError
                 ("You cannot specify a non-existant field '" +:+ fieldName
                  +:+ "' in @key '" +:+ show (name directiveArgs)
                  +:+ "' on type '" +:+ def_name definition +:+ "'."))
      | Some existingField =>
          rbind (attributeTypeFromType (fd_type existingField) ctx) (fun ddbKeyType =>
          if negb (isNonNullType (fd_type existingField)) then
            Err (InvalidDirectiveError
                   ("The primary @key on type '" +:+ def_name definition
                    +:+ "' must reference non-null fields."))
          else if negb (String.eqb ddbKeyType "S") && negb (String.eqb ddbKeyType "N")
                  && negb (String.eqb ddbKeyType "B") then
            Err (InvalidDirectiveError
                   ("The primary @key on type '" +:+ def_name definition
                    +:+ "' cannot reference non-scalar field " +:+ fieldName +:+ "."))
          else validateFields definition directiveArgs ctx m rest)
      end
  end.

Definition validate (definition : ObjectTypeDefinitionNode) (directive : DirectiveNode)
    (ctx : TransformerContext) : Result unit :=
  let directiveArgs := dir_arguments directive in
  rbind
    (if negb (truthy_string (name directiveArgs)) then
       if existsb (fun otherDirective =>
                     isOther otherDirective directive
                     && negb (truthy_string (name (dir_arguments otherDirective))))
                  (keyDirectives definition)
       then Err (InvalidDirectiveError
                   ("You may only supply one primary @key on type '"
                    +:+ def_name definition +:+ "'."))
       else if truthy_string (queryField directiveArgs)
       then Err (InvalidDirectiveError
                   ("You cannot pass 'queryField' to the primary @key on type '"
                    +:+ def_name definition +:+ "'."))
       else Ok tt
     else
       if existsb (fun otherDirective =>
                     isOther otherDirective directive
                     && bool_decide (name (dir_arguments otherDirective) = name directiveArgs))
                  (keyDirectives definition)
       then Err (InvalidDirectiveError
                   ("You may only supply one @key with the name '"
                    +:+ show (name directiveArgs) +:+ "' on type '"
                    +:+ def_name definition +:+ "'."))
       else Ok tt)
    (fun _ =>
       validateFields definition directiveArgs ctx (fieldMap (def_fields definition))
                      (fields directiveArgs)).

(** The intrinsic functions of cloudform-types, in their JSON form. *)
Definition FnRef (logicalName : string) : json := JObj [("Ref", JStr logicalName)].
Definition FnGetAtt (logicalName attr : string) : json :=
  JObj [("Fn::GetAtt", JArr [JStr logicalName; JStr attr])].
Definition FnIf (condition : string) (v1 v2 : json) : json :=
  JObj [("Fn::If", JArr [JStr condition; v1; v2])].
Definition NoValue : json := FnRef "AWS::NoValue".

Definition withTable (p : ResourceProperties)
    (ks : option (list KeySchemaElement)) (ads : option (list AttributeDefinition))
    (lsi gsi : option (list SecondaryIndex)) : ResourceProperties :=
  {| KeySchema := ks; AttributeDefinitions := ads;
     LocalSecondaryIndexes := lsi; GlobalSecondaryIndexes := gsi;
     ApiId := ApiId p; DataSourceName := DataSourceName p;
     FieldName := FieldName p; TypeName := TypeName p;
     RequestMappingTemplate := RequestMappingTemplate p;
     ResponseMappingTemplate := ResponseMappingTemplate p |}.

Definition attributeNames (ads : list AttributeDefinition) : gset string :=
  list_to_set (map ad_AttributeName ads).

(** One round of the loop over the old key schema in [replacePrimaryKey]: the
    state is the table's [AttributeDefinitions] and [existingAttrDefSet]. *)
Definition pruneKey (st : list AttributeDefinition * gset string)
    (existingKey : KeySchemaElement) : list AttributeDefinition * gset string :=
  match ks_AttributeName existingKey with
  | Some n =>
      if decide (n ∈ st.2)
      then (filter (fun ad => ad_AttributeName ad ≠ n) st.1, st.2 ∖ {[n]})
      else st
  | None => st
  end.

(** The loop that pushes the derived attribute definitions whose name is not
    in [existingAttrDefSet]; the set is not written in the loop. *)
Definition pushMissing (existingAttrDefSet : gset string)
    (ads attrDefs : list AttributeDefinition) : list AttributeDefinition :=
  foldl (fun ads attr =>
           if decide (ad_AttributeName attr ∈ existingAttrDefSet) then ads
           else ads ++ [attr]) ads attrDefs.

Definition notModel : Error :=
  InvalidDirectiveError
    "The @key directive may only be added to object definitions annotated with @model.".

Definition replacePrimaryKey (definition : ObjectTypeDefinitionNode)
    (directive : DirectiveNode) : M unit :=
  let args := dir_arguments directive in
  let ks := keySchema args in
  let* attrDefs := (fun ctx => lift (attributeDefinitions args definition ctx) ctx) in
  let tableLogicalID := ModelTableResourceID (def_name definition) in
  let* tableResource := getResource tableLogicalID in
  match tableResource with
  | None => throw notModel
  | Some tableResource =>
      let props := Properties tableResource in
      match AttributeDefinitions props, KeySchema props with
      | Some ads, Some oldKeys =>
          let existingAttrDefSet := attributeNames ads in
          let '(ads, existingAttrDefSet) := foldl pruneKey (ads, existingAttrDefSet) oldKeys in
          let ads := pushMissing existingAttrDefSet ads attrDefs in
          writeResource tableLogicalID
            {| Properties :=
                 withTable props (Some ks) (Some ads)
                           (LocalSecondaryIndexes props) (GlobalSecondaryIndexes props) |}
      | _, _ => throw TypeError
      end
  end.

(** [new LocalSecondaryIndex(baseIndexProperties)] *)
Definition localSecondaryIndex (args : KeyArguments) (ks : list KeySchemaElement)
    : SecondaryIndex :=
  {| IndexName := name args; ix_KeySchema := ks; ProjectionType := "ALL";
     ProvisionedThroughput := None |}.

(** [new GlobalSecondaryIndex({...baseIndexProperties, ProvisionedThroughput})] *)
Definition globalSecondaryIndex (args : KeyArguments) (ks : list KeySchemaElement)
    : SecondaryIndex :=
  {| IndexName := name args; ix_KeySchema := ks; ProjectionType := "ALL";
     ProvisionedThroughput :=
       Some (FnIf ShouldUsePayPerRequestBilling NoValue
               (JObj [("ReadCapacityUnits", FnRef DynamoDBModelTableReadIOPS);
                      ("WriteCapacityUnits", FnRef DynamoDBModelTableWriteIOPS)])) |}.

(** [primaryKeyDirective ? getDirectiveArguments(primaryKeyDirective).fields[0]
    : 'id'] *)
Definition primaryPartitionKeyName (definition : ObjectTypeDefinitionNode) : option string :=
  match getPrimaryKey definition with
  | Some primaryKeyDirective => head (fields (dir_arguments primaryKeyDirective))
  | None => Some "id"
  end.

(** [appendSecondaryIndex].  [ks[0].AttributeName] is the name of the first
    entry of the derived key schema.  The index is written to the table
    before [AttributeDefinitions] is read. *)
Definition appendSecondaryIndex (definition : ObjectTypeDefinitionNode)
    (directive : DirectiveNode) : M unit :=
  let args := dir_arguments directive in
  let ks := keySchema args in
  let* attrDefs := (fun ctx => lift (attributeDefinitions args definition ctx) ctx) in
  let tableLogicalID := ModelTableResourceID (def_name definition) in
  let* tableResource := getResource tableLogicalID in
  let primaryPartitionKeyName := primaryPartitionKeyName definition in
  match tableResource with
  | None => throw notModel
  | Some tableResource =>
      let props := Properties tableResource in
      let props :=
        if decide (primaryPartitionKeyName = (head ks ≫= ks_AttributeName)) then
          withTable props (KeySchema props) (AttributeDefinitions props)
            (Some (append (LocalSecondaryIndexes props) (localSecondaryIndex args ks)))
            (GlobalSecondaryIndexes props)
        else
          withTable props (KeySchema props) (AttributeDefinitions props)
            (LocalSecondaryIndexes props)
            (Some (append (GlobalSecondaryIndexes props) (globalSecondaryIndex args ks)))
      in
      writeResource tableLogicalID {| Properties := props |} ;;
      match AttributeDefinitions props with
      | Some ads =>
          let existingAttrDefSet := attributeNames ads in
          writeResource tableLogicalID
            {| Properties :=
                 withTable props (KeySchema props)
                           (Some (pushMissing existingAttrDefSet ads attrDefs))
                           (LocalSecondaryIndexes props) (GlobalSecondaryIndexes props) |}
      | None => throw TypeError
      end
  end.

Definition updateIndexStructures (definition : ObjectTypeDefinitionNode)
    (directive : DirectiveNode) : M unit :=
  if isPrimaryKey directive then replacePrimaryKey definition directive
  else appendSecondaryIndex definition directive.

(** [definition.fields.find(...)] followed by a read of [keyField.type]. *)
Definition typeOfFound (definition : ObjectTypeDefinitionNode) (name : string) : Result TypeNode :=
  match findField (def_fields definition) name with
  | Some keyField => Ok (fd_type keyField)
  | None => Err TypeError
  end.

Definition withArguments (f : FieldDefinitionNode) (args : list InputValueDefinitionNode)
    : FieldDefinitionNode :=
  {| fd_name := fd_name f; fd_arguments := args; fd_type := fd_type f |}.

Definition withFields (q : ObjectTypeDefinitionNode) (fs : list FieldDefinitionNode)
    : ObjectTypeDefinitionNode :=
  {| def_name := def_name q; def_fields := fs; def_directives := def_directives q |}.

(** [query.fields.map(field => field.name.value === f.name.value ? f : field)] *)
Definition replaceField (fs : list FieldDefinitionNode) (f : FieldDefinitionNode)
    : list FieldDefinitionNode :=
  map (fun field => if String.eqb (fd_name field) (fd_name f) then f else field) fs.

(** [query.fields.find(field => field.name.value === resolver.Properties.FieldName)] *)
Definition findResolverField (fs : list FieldDefinitionNode) (resolver : Resource)
    : option FieldDefinitionNode :=
  List.find (fun field => bool_decide (Some (fd_name field) = FieldName (Properties resolver))) fs.

(** [updateGetField].  When no field of the query has the resolver's field
    name, [getField] is an object with [arguments] only, and the callback of
    the final [map], which runs if the query has a field, reads
    [getField.name.value] and throws. *)
Definition updateGetField (definition : ObjectTypeDefinitionNode)
    (directive : DirectiveNode) : M unit :=
  let* query := getQuery in
  let getResourceID := DynamoDBGetResolverResourceID (def_name definition) in
  let* getResolverResource := getResource getResourceID in
  match getResolverResource with
  | Some getResolverResource =>
      if isPrimaryKey directive then
        let* query := lift (asObject query) in
        let getField := findResolverField (def_fields query) getResolverResource in
        let args := dir_arguments directive in
        let* getArguments :=
          lift (mapR (fun keyAttributeName =>
                        rbind (typeOfFound definition keyAttributeName) (fun keyType =>
                        Ok (makeInputValueDefinition keyAttributeName
                              (makeNonNullType (makeNamedType (getBaseType keyType))))))
                     (fields args)) in
        match getField, def_fields query with
        | Some getField, _ =>
            let getField := withArguments getField getArguments in
            putType (ObjectTypeDefinition
                       (withFields query (replaceField (def_fields query) getField)))
        | None, [] => putType (ObjectTypeDefinition query)
        | None, _ :: _ => throw TypeError
        end
      else ret tt
  | None => ret tt
  end.

(** The loop of [updateListField], from the last key field down to the
    first: each round puts one argument in front of [listArguments].
    [i] is the index of the field and [n] is [args.fields.length]. *)
Definition listKeyArgument (definition : ObjectTypeDefinitionNode) (n i : nat)
    (keyAttributeName : string) : Result InputValueDefinitionNode :=
  rbind (typeOfFound definition keyAttributeName) (fun keyType =>
  Ok (if (i =? n - 1)%nat && negb (n =? 1)%nat
      then makeInputValueDefinition keyAttributeName
             (makeNamedType (ModelKeyConditionInputTypeName (getBaseType keyType)))
      else makeInputValueDefinition keyAttributeName
             (makeNamedType (getBaseType keyType)))).

Fixpoint prependKeyArguments (definition : ObjectTypeDefinitionNode) (n : nat)
    (indexed : list (nat * string)) (listArguments : list InputValueDefinitionNode)
    : Result (list InputValueDefinitionNode) :=
  match indexed with
  | [] => Ok listArguments
  | (i, keyAttributeName) :: rest =>
      rbind (listKeyArgument definition n i keyAttributeName) (fun keyArgument =>
      prependKeyArguments definition n rest (keyArgument :: listArguments))
  end.

Definition updateListField (definition : ObjectTypeDefinitionNode)
    (directive : DirectiveNode) : M unit :=
  let listResourceID := DynamoDBListResolverResourceID (def_name definition) in
  let* listResolverResource := getResource listResourceID in
  match listResolverResource with
  | Some listResolverResource =>
      if isPrimaryKey directive then
        let* query := getQuery in
        let* query := lift (asObject query) in
        match findResolverField (def_fields query) listResolverResource with
        | None => throw TypeError
        | Some listField =>
            let listArguments := fd_arguments listField in
            let args := dir_arguments directive in
            let* listArguments :=
              lift (prependKeyArguments definition (length (fields args))
                      (reverse (imap (fun i k => (i, k)) (fields args))) listArguments) in
            let listField := withArguments listField listArguments in
            putType (ObjectTypeDefinition
                       (withFields query (replaceField (def_fields query) listField)))
        end
      else ret tt
  | None => ret tt
  end.

Definition ensureQueryField (definition : ObjectTypeDefinitionNode)
    (directive : DirectiveNode) : M unit :=
  let args := dir_arguments directive in
  if truthy_string (queryField args) && negb (isPrimaryKey directive) then
    let* queryType := getQuery in
    let n := length (fields args) in
    let* queryArgs :=
      lift (mapR (fun '(i, keyAttributeName) =>
                    rbind (typeOfFound definition keyAttributeName) (fun keyType =>
                    Ok (if (i =? n - 1)%nat && negb (n =? 1)%nat
                        then makeInputValueDefinition keyAttributeName
                               (makeNamedType
                                  (ModelKeyConditionInputTypeName (getBaseType keyType)))
                        else makeInputValueDefinition keyAttributeName
                               (makeNonNullType (makeNamedType (getBaseType keyType))))))
                 (imap (fun i k => (i, k)) (fields args))) in
    let queryField := makeConnectionField (show (queryField args)) (def_name definition) queryArgs in
    let* queryType := lift (asObject queryType) in
    putType (ObjectTypeDefinition
               (withFields queryType (def_fields queryType ++ [queryField])))
  else ret tt.

Definition updateQueryFields (definition : ObjectTypeDefinitionNode)
    (directive : DirectiveNode) : M unit :=
  updateGetField definition directive ;;
  updateListField definition directive ;;
  ensureQueryField definition directive.

(** [ctx.getType(name) as InputObjectTypeDefinitionNode]; a node of another
    kind is outside the declared type of the read. *)
Definition asInput (t : TypeDefinitionNode) : Result InputObjectTypeDefinitionNode :=
  match t with
  | InputObjectTypeDefinition i => Ok i
  | _ => Err TypeError
  end.

Definition withInputFields (input : InputObjectTypeDefinitionNode)
    (fs : list InputValueDefinitionNode) : InputObjectTypeDefinitionNode :=
  {| in_name := in_name input; in_fields := fs |}.

Definition primaryIdFields (definition : ObjectTypeDefinitionNode) (keyFields : list string)
    : Result (list InputValueDefinitionNode) :=
  mapR (fun keyFieldName =>
          rbind (typeOfFound definition keyFieldName) (fun keyType =>
          Ok (makeInputValueDefinition keyFieldName
                (makeNonNullType (makeNamedType (getBaseType keyType))))))
       keyFields.

(** [if (keyFields.find(k => k === f.name.value))]: the found string is the
    condition. *)
Definition isKeyField (keyFields : list string) (fieldName : string) : bool :=
  truthy_string (List.find (fun k => String.eqb k fieldName) keyFields).

Definition replaceCreateInput (definition : ObjectTypeDefinitionNode)
    (input : InputObjectTypeDefinitionNode) (keyFields : list string)
    : InputObjectTypeDefinitionNode :=
  withInputFields input
    (foldl (fun acc f =>
              if isKeyField keyFields (iv_name f) then
                acc ++ [makeInputValueDefinition (iv_name f)
                          (makeNonNullType (makeNamedType (getBaseType (iv_type f))))]
              else
                match findField (def_fields definition) (iv_name f) with
                | Some existingField =>
                    if isNonNullType (fd_type existingField) then
                      acc ++ [makeInputValueDefinition (iv_name f)
                                (makeNonNullType (makeNamedType (getBaseType (iv_type f))))]
                    else
                      acc ++ [makeInputValueDefinition (iv_name f)
                                (makeNamedType (getBaseType (iv_type f)))]
                | None => acc
                end)
           [] (in_fields input)).

Definition replaceUpdateInput (definition : ObjectTypeDefinitionNode)
    (input : InputObjectTypeDefinitionNode) (keyFields : list string)
    : InputObjectTypeDefinitionNode :=
  withInputFields input
    (map (fun f =>
            if isKeyField keyFields (iv_name f) then
              makeInputValueDefinition (iv_name f)
                (makeNonNullType (makeNamedType (getBaseType (iv_type f))))
            else
              makeInputValueDefinition (iv_name f) (makeNamedType (getBaseType (iv_type f))))
         (in_fields input)).

Definition replaceDeleteInput (definition : ObjectTypeDefinitionNode)
    (input : InputObjectTypeDefinitionNode) (keyFields : list string)
    : Result InputObjectTypeDefinitionNode :=
  rbind (primaryIdFields definition keyFields) (fun fs => Ok (withInputFields input fs)).

Definition updateInputObjects (definition : ObjectTypeDefinitionNode)
    (directive : DirectiveNode) : M unit :=
  if isPrimaryKey directive then
    let directiveArgs := dir_arguments directive in
    let* createInput := getType (ModelCreateInputObjectName (def_name definition)) in
    match createInput with
    | Some createInput =>
        let* createInput := lift (asInput createInput) in
        putType (InputObjectTypeDefinition
                   (replaceCreateInput definition createInput (fields directiveArgs)))
    | None => ret tt
    end ;;
    let* updateInput := getType (ModelUpdateInputObjectName (def_name definition)) in
    match updateInput with
    | Some updateInput =>
        let* updateInput := lift (asInput updateInput) in
        putType (InputObjectTypeDefinition
                   (replaceUpdateInput definition updateInput (fields directiveArgs)))
    | None => ret tt
    end ;;
    let* deleteInput := getType (ModelDeleteInputObjectName (def_name definition)) in
    match deleteInput with
    | Some deleteInput =>
        let* deleteInput := lift (asInput deleteInput) in
        let* replaced := lift (replaceDeleteInput definition deleteInput (fields directiveArgs)) in
        putType (InputObjectTypeDefinition replaced)
    | None => ret tt
    end
  else ret tt.

Definition updateSchema (definition : ObjectTypeDefinitionNode)
    (directive : DirectiveNode) : M unit :=
  updateQueryFields definition directive ;;
  updateInputObjects definition directive.

(** The double quote character. *)
Definition dq : string := String (Ascii.ascii_of_nat 34) EmptyString.

Definition toDynamoDBArg (argsPrefix field : string) : Expression :=
  Vtl.ref ("util.dynamodb.toDynamoDB($" +:+ argsPrefix +:+ "." +:+ field +:+ ")").

Definition condensedValue (argsPrefix : string) (rangeKeyFields : list string) : string :=
  condenseRangeKey
    (map (fun keyField => "${" +:+ argsPrefix +:+ "." +:+ keyField +:+ "}") rangeKeyFields).

Definition noFields : Error :=
  InvalidDirectiveError "@key directives must include at least one field.".

(** [modelObjectKey(args, isMutation)], by [args.fields.length]: more than
    two, two, one, and none, which throws. *)
Definition modelObjectKey (args : KeyArguments) (isMutation : bool) : Result Expression :=
  let argsPrefix := if isMutation then "ctx.args.input" else "ctx.args" in
  match fields args with
  | f0 :: _ :: _ :: _ =>
      let rangeKeyFields := tail (fields args) in
      let condensedSortKey := condenseRangeKey rangeKeyFields in
      let condensedSortKeyValue := condensedValue argsPrefix rangeKeyFields in
      Ok (Vtl.obj (js_object
            [ (f0, toDynamoDBArg argsPrefix f0);
              (condensedSortKey,
               Vtl.ref ("util.dynamodb.toDynamoDB(" +:+ dq +:+ condensedSortKeyValue
                        +:+ dq +:+ ")")) ]))
  | [f0; f1] =>
      Ok (Vtl.obj (js_object
            [ (f0, toDynamoDBArg argsPrefix f0); (f1, toDynamoDBArg argsPrefix f1) ]))
  | [f0] => Ok (Vtl.obj (js_object [ (f0, toDynamoDBArg argsPrefix f0) ]))
  | [] => Err noFields
  end.

Definition ensureCompositeKey (args : KeyArguments) : Expression :=
  let argsPrefix := "ctx.args.input" in
  if (2 <? length (fields args))%nat then
    let rangeKeyFields := tail (fields args) in
    let condensedSortKey := condenseRangeKey rangeKeyFields in
    let condensedSortKeyValue := condensedValue argsPrefix rangeKeyFields in
    Vtl.qref ("$ctx.args.input.put(" +:+ dq +:+ condensedSortKey +:+ dq +:+ ","
              +:+ dq +:+ condensedSortKeyValue +:+ dq +:+ ")")
  else Vtl.newline.

Definition setKeySnippet (directive : DirectiveNode) (isMutation : bool) : Result string :=
  let directiveArgs := dir_arguments directive in
  rbind (modelObjectKey directiveArgs isMutation) (fun key =>
  let cmds := [Vtl.set (Vtl.ref ModelObjectKey) key] in
  let cmds := if isMutation then cmds ++ [ensureCompositeKey directiveArgs] else cmds in
  Ok (printBlock "Set the primary @key" (Vtl.compoundExpression cmds))).

Definition setQuerySnippet (definition : ObjectTypeDefinitionNode)
    (directive : DirectiveNode) (ctx : TransformerContext) : Result Expression :=
  let args := dir_arguments directive in
  let keys := fields args in
  rbind (mapR (fun k =>
                 rbind (typeOfFound definition k) (fun fieldType =>
                 attributeTypeFromType fieldType ctx)) keys) (fun keyTypes =>
  Ok (Vtl.block "Set query expression for @key"
        [ Vtl.set (Vtl.ref ModelQueryExpression) (Vtl.obj []);
          applyKeyExpressionForCompositeKey keys keyTypes ModelQueryExpression ])).

Definition makeQueryResolver (definition : ObjectTypeDefinitionNode)
    (directive : DirectiveNode) (ctx : TransformerContext) : Result Resource :=
  let type := def_name definition in
  let directiveArgs := dir_arguments directive in
  let index := name directiveArgs in
  let fieldName := queryField directiveArgs in
  let queryTypeName := queryTypeName ctx in
  let defaultPageLimit := 10%nat in
  let requestVariable := "QueryRequest" in
  rbind (setQuerySnippet definition directive ctx) (fun querySnippet =>
  Ok {| Properties :=
          {| KeySchema := None; AttributeDefinitions := None;
             LocalSecondaryIndexes := None; GlobalSecondaryIndexes := None;
             ApiId := Some (FnGetAtt GraphQLAPILogicalID "ApiId");
             DataSourceName := Some (FnGetAtt (ModelTableDataSourceID type) "Name");
             FieldName := fieldName;
             TypeName := Some queryTypeName;
             RequestMappingTemplate :=
               Some (print (Vtl.compoundExpression
                 [ querySnippet;
                   Vtl.set (Vtl.ref "limit")
                     (Vtl.ref ("util.defaultIfNull($context.args.limit, "
                               +:+ pretty defaultPageLimit +:+ ")"));
                   Vtl.set (Vtl.ref requestVariable)
                     (Vtl.obj (js_object
                        [ ("version", Vtl.str "2017-02-28");
                          ("operation", Vtl.str "Query");
                          ("limit", Vtl.ref "limit");
                          ("query", Vtl.ref ModelQueryExpression);
                          ("index", Vtl.str (show index)) ]));
                   Vtl.iff (Vtl.ref "context.args.nextToken")
                     (Vtl.set (Vtl.ref (requestVariable +:+ ".nextToken"))
                        (Vtl.str "$context.args.nextToken"))
                     true;
                   Vtl.iff (Vtl.ref "context.args.filter")
                     (Vtl.set (Vtl.ref (requestVariable +:+ ".filter"))
                        (Vtl.ref "util.transform.toDynamoDBFilterExpression($ctx.args.filter)"))
                     true;
                   Vtl.raw ("$util.toJson($" +:+ requestVariable +:+ ")") ]));
             ResponseMappingTemplate := Some (print (Vtl.raw "$util.toJson($ctx.result)")) |} |}).

Definition withRequestMappingTemplate (r : Resource) (t : string) : Resource :=
  let p := Properties r in
  {| Properties :=
       {| KeySchema := KeySchema p; AttributeDefinitions := AttributeDefinitions p;
          LocalSecondaryIndexes := LocalSecondaryIndexes p;
          GlobalSecondaryIndexes := GlobalSecondaryIndexes p;
          ApiId := ApiId p; DataSourceName := DataSourceName p;
          FieldName := FieldName p; TypeName := TypeName p;
          RequestMappingTemplate := Some t;
          ResponseMappingTemplate := ResponseMappingTemplate p |} |}.

(** [r.Properties.RequestMappingTemplate = snippet + '\n' +
    r.Properties.RequestMappingTemplate] for the resolver [id], if it is
    there; the snippet is computed only then. *)
Definition prependSnippet (id : string) (snippet : TransformerContext -> Result string) : M unit :=
  let* resolver := getResource id in
  match resolver with
  | Some resolver =>
      let* s := (fun ctx => lift (snippet ctx) ctx) in
      writeResource id
        (withRequestMappingTemplate resolver
           (s +:+ nl +:+ show (RequestMappingTemplate (Properties resolver))))
  | None => ret tt
  end.

Definition updateResolvers (definition : ObjectTypeDefinitionNode)
    (directive : DirectiveNode) : M unit :=
  let directiveArgs := dir_arguments directive in
  if isPrimaryKey directive then
    prependSnippet (DynamoDBGetResolverResourceID (def_name definition))
      (fun _ => setKeySnippet directive false) ;;
    prependSnippet (DynamoDBListResolverResourceID (def_name definition))
      (fun ctx => rbind (setQuerySnippet definition directive ctx) (fun e => Ok (print e))) ;;
    prependSnippet (DynamoDBCreateResolverResourceID (def_name definition))
      (fun _ => setKeySnippet directive true) ;;
    prependSnippet (DynamoDBUpdateResolverResourceID (def_name definition))
      (fun _ => setKeySnippet directive true) ;;
    prependSnippet (DynamoDBDeleteResolverResourceID (def_name definition))
      (fun _ => setKeySnippet directive true)
  else if truthy_string (name directiveArgs) && truthy_string (queryField directiveArgs) then
    let* queryTypeName := getQueryTypeName in
    let queryResolverId := ResolverResourceID queryTypeName (show (queryField directiveArgs)) in
    let* queryResolver := (fun ctx => lift (makeQueryResolver definition directive ctx) ctx) in
    addToStackMapping (def_name definition) ("^" +:+ queryResolverId +:+ "$") ;;
    setResource queryResolverId queryResolver
  else ret tt.

Definition addKeyConditionInputs (definition : ObjectTypeDefinitionNode)
    (directive : DirectiveNode) : M unit :=
  let args := dir_arguments directive in
  if (1 <? length (fields args))%nat then
    let finalSortKeyFieldName := last (fields args) in
    let finalSortKeyField :=
      finalSortKeyFieldName ≫= findField (def_fields definition) in
    let* sortKeyConditionInput :=
      lift (if (2 <? length (fields args))%nat then
              makeScalarKeyConditionForType (makeNamedType "String")
            else
              match finalSortKeyField with
              | Some f => makeScalarKeyConditionForType (fd_type f)
              | None => Err TypeError
              end) in
    let* existing := getType (in_name sortKeyConditionInput) in
    match existing with
    | None => addInput sortKeyConditionInput
    | Some _ => ret tt
    end
  else ret tt.

(** [object(definition, directive, ctx)]: the transformer's entry point for
    one [@key] directive on an object type. *)
Definition object (definition : ObjectTypeDefinitionNode) (directive : DirectiveNode) : M unit :=
  (fun ctx => lift (validate definition directive ctx) ctx) ;;
  updateIndexStructures definition directive ;;
  updateSchema definition directive ;;
  updateResolvers definition directive ;;
  addKeyConditionInputs definition directive.

End KeyTransformer.

(** ** The read-authorization gate *)

Module Auth.

(** What running a template fragment comes to. *)
Inductive Outcome :=
| Unauthorized
| Continue.

(** Modelled from the spec: the engine that runs the printed templates is an
    external collaborator.  By the spec a conditional runs its body when its
    condition holds, the flags are booleans that are true, false or not set,
    and the unauthorized leaf ends the request.  [value] is the value of an
    operand of a comparison: a variable reads its flag, [None] when not set,
    and [true] and [false] are the literals. *)
Definition value (flags : gmap string bool) (e : Expression) : option (option bool) :=
  match e with
  | Vtl.ref v => Some (flags !! v)
  | Vtl.raw "true" => Some (Some true)
  | Vtl.raw "false" => Some (Some false)
  | _ => None
  end.

(** Modelled from the spec: the truth of a condition, by the names of its
    builders: a comparison of two operands, a negation, a bracketed
    condition, and a disjunction that holds when one of its members does;
    [None] for an expression that is not a condition. *)
Fixpoint holds (flags : gmap string bool) (e : Expression) : option bool :=
  match e with
  | Vtl.equals l r =>
      match value flags l, value flags r with
      | Some a, Some b => Some (bool_decide (a = b))
      | _, _ => None
      end
  | Vtl.not e => negb <$> holds flags e
  | Vtl.parens e => holds flags e
  | Vtl.or es =>
      (fix any (es : list Expression) : option bool :=
         match es with
         | [] => Some false
         | e :: rest =>
             match holds flags e, any rest with
             | Some a, Some b => Some (a || b)
             | _, _ => None
             end
         end) es
  | _ => None
  end.

(** Modelled from the spec: the run of a gate, a conditional whose body is
    the unauthorized leaf: the leaf runs when the condition holds. *)
Definition run (flags : gmap string bool) (e : Expression) : option Outcome :=
  match e with
  | Vtl.iff predicate (Vtl.raw "$util.unauthorized()") _ =>
      match holds flags predicate with
      | Some true => Some Unauthorized
      | Some false => Some Continue
      | None => None
      end
  | _ => None
  end.

Section Gate.
(** [ResourceConstants.SNIPPETS], which is not among the sources. *)
Variables IsNotAuthProtectedVariable IsStaticGroupAuthorizedVariable
          IsDynamicGroupAuthorizedVariable IsOwnerAuthorizedVariable : string.

Definition throwIfUnauthorizedForReadOperations : Expression :=
  Vtl.iff
    (Vtl.not (Vtl.parens
       (Vtl.or
          [ Vtl.equals (Vtl.ref IsNotAuthProtectedVariable) (Vtl.raw "true");
            Vtl.equals (Vtl.ref IsStaticGroupAuthorizedVariable) (Vtl.raw "true");
            Vtl.equals (Vtl.ref IsDynamicGroupAuthorizedVariable) (Vtl.raw "true");
            Vtl.equals (Vtl.ref IsOwnerAuthorizedVariable) (Vtl.raw "true") ])))
    (Vtl.raw "$util.unauthorized()")
    false.

End Gate.
End Auth.

(** ** An instance of the imports, for evaluation *)

(** Table, resolver and input names as the transformer's tests show them
    ([TestTable] for the type [Test]); strings and ids are ['S'] and numbers
    ['N']. *)
Definition sampleExternal : External :=
  {| attributeTypeFromScalar := fun type =>
       let base := getBaseType type in
       if String.eqb base "String" || String.eqb base "ID" || String.eqb base "AWSDateTime"
       then Ok "S"
       else if String.eqb base "Int" || String.eqb base "Float" then Ok "N"
       else Err (ExternalError ("Expected scalar and got " +:+ base));
     ModelTableResourceID := fun t => t +:+ "Table";
     ModelTableDataSourceID := fun t => t +:+ "DataSource";
     ModelCreateInputObjectName := fun t => "Create" +:+ t +:+ "Input";
     ModelUpdateInputObjectName := fun t => "Update" +:+ t +:+ "Input";
     ModelDeleteInputObjectName := fun t => "Delete" +:+ t +:+ "Input";
     ModelKeyConditionInputTypeName := fun t => "Model" +:+ t +:+ "KeyConditionInput";
     DynamoDBGetResolverResourceID := fun t => "Get" +:+ t +:+ "Resolver";
     DynamoDBListResolverResourceID := fun t => "List" +:+ t +:+ "Resolver";
     DynamoDBCreateResolverResourceID := fun t => "Create" +:+ t +:+ "Resolver";
     DynamoDBUpdateResolverResourceID := fun t => "Update" +:+ t +:+ "Resolver";
     DynamoDBDeleteResolverResourceID := fun t => "Delete" +:+ t +:+ "Resolver";
     ResolverResourceID := fun t f => t +:+ f +:+ "Resolver";
     ShouldUsePayPerRequestBilling := "ShouldUsePayPerRequestBilling";
     DynamoDBModelTableReadIOPS := "DynamoDBModelTableReadIOPS";
     DynamoDBModelTableWriteIOPS := "DynamoDBModelTableWriteIOPS";
     GraphQLAPILogicalID := "GraphQLAPI";
     ModelObjectKey := "modelObjectKey";
     ModelQueryExpression := "modelQueryExpression";
     makeConnectionField := fun fieldName returnTypeName args =>
       {| fd_name := fieldName; fd_arguments := args;
          fd_type := NamedType ("Model" +:+ returnTypeName +:+ "Connection") |};
     makeScalarKeyConditionForType := fun type =>
       Ok {| in_name := "Model" +:+ getBaseType type +:+ "KeyConditionInput";
             in_fields := [] |};
     applyKeyExpressionForCompositeKey := fun _ _ _ => Vtl.newline;
     print := fun _ => "$template";
     printBlock := fun blockName _ => "## [Start] " +:+ blockName |}.

(** ** The reference walk in the words of the specification *)

Module WalkSpec.






(** The tree of the specification's example: a reference to [Foo] at the
    path [Resources.Foo.Properties.Bar]. *)
Definition exampleTemplate : json :=
  JObj [("Resources",
         JObj [("Foo",
                JObj [("Properties", JObj [("Bar", JObj [("Ref", JStr "Foo")])])])])].

(** The same tree with a reference to a resource of the logical name
    [constructor]. *)
Definition inheritedNameTemplate : json :=
  JObj [("Resources",
         JObj [("Foo",
                JObj [("Properties",
                       JObj [("Bar", JObj [("Ref", JStr "constructor")])])])])].

End WalkSpec.

(** ** Tables, their key schemas and their attribute definitions *)

Section Tables.
Context `{External}.

(** The properties of the table resource of a type. *)
Definition tableOf (ctx : TransformerContext) (definition : ObjectTypeDefinitionNode)
    : option ResourceProperties :=
  Properties <$> resources ctx !! ModelTableResourceID (def_name definition).

(** The attribute names a key schema references. *)
Definition keyNames (ks : list KeySchemaElement) : gset string :=
  list_to_set (omap ks_AttributeName ks).

Definition indexNames (indexes : option (list SecondaryIndex)) : gset string :=
  ⋃ (map (fun ix => keyNames (ix_KeySchema ix)) (default [] indexes)).

(** The attribute names referenced by any key schema of a table: the primary
    one, the local and the global secondary indexes. *)
Definition referencedNames (p : ResourceProperties) : gset string :=
  keyNames (default [] (KeySchema p))
  ∪ indexNames (LocalSecondaryIndexes p) ∪ indexNames (GlobalSecondaryIndexes p).

Definition definedNames (p : ResourceProperties) : gset string :=
  attributeNames (default [] (AttributeDefinitions p)).

(** The invariant of the data model: one attribute definition for each
    referenced attribute name, and no name defined twice. *)
Definition attributeInvariant (p : ResourceProperties) : Prop :=
  NoDup (map ad_AttributeName (default [] (AttributeDefinitions p)))
  /\ definedNames p = referencedNames p.

(** The name of the [HASH] attribute of a table's primary key schema. *)
Definition tableHashName (p : ResourceProperties) : option string :=
  List.find (fun k => match ks_KeyType k with HASH => true | RANGE => false end)
            (default [] (KeySchema p))
  ≫= ks_AttributeName.

(** The key schema of an index in the words of the specification: the first
    field is the [HASH] attribute; a second field is the [RANGE] attribute;
    of three fields or more, all but the first are joined with [#] into the
    name of the [RANGE] attribute. *)
Definition indexKeySchema (fs : list string) : list KeySchemaElement :=
  match fs with
  | [] => []
  | [f0] => [ {| ks_AttributeName := Some f0; ks_KeyType := HASH |} ]
  | f0 :: rest =>
      [ {| ks_AttributeName := Some f0; ks_KeyType := HASH |};
        {| ks_AttributeName := Some (String.concat "#" rest); ks_KeyType := RANGE |} ]
  end.

(** The index of a directive is appended to [new] as a local index: the
    local indexes of [new] are those of [old], none if [old] has no such
    property, followed by one index of the directive's name with the
    directive's key schema, which projects all attributes; the global indexes
    are as in [old]. *)
Definition appendedLocal (args : KeyArguments) (old new : ResourceProperties) : Prop :=
  LocalSecondaryIndexes new
  = Some (default [] (LocalSecondaryIndexes old)
          ++ [ {| IndexName := name args;
                  ix_KeySchema := indexKeySchema (fields args);
                  ProjectionType := "ALL";
                  ProvisionedThroughput := None |} ])
  /\ GlobalSecondaryIndexes new = GlobalSecondaryIndexes old.

(** The index of a directive is appended to [new] as a global index: the
    global indexes of [new] are those of [old], none if [old] has no such
    property, followed by one index of the directive's name with the
    directive's key schema, which projects all attributes and whose
    throughput is none under the pay-per-request condition of the table and
    the table's read and write capacity otherwise; the local indexes are as
    in [old]. *)
Definition appendedGlobal (args : KeyArguments) (old new : ResourceProperties) : Prop :=
  GlobalSecondaryIndexes new
  = Some (default [] (GlobalSecondaryIndexes old)
          ++ [ {| IndexName := name args;
                  ix_KeySchema := indexKeySchema (fields args);
                  ProjectionType := "ALL";
                  ProvisionedThroughput :=
                    Some (JObj [("Fn::If",
                                 JArr [ JStr ShouldUsePayPerRequestBilling;
                                        JObj [("Ref", JStr "AWS::NoValue")];
                                        JObj [("ReadCapacityUnits",
                                               JObj [("Ref", JStr DynamoDBModelTableReadIOPS)]);
                                              ("WriteCapacityUnits",
                                               JObj [("Ref", JStr DynamoDBModelTableWriteIOPS)])]
                                      ])]) |} ])
  /\ LocalSecondaryIndexes new = LocalSecondaryIndexes old.

(** Applying a secondary directive appends its index as a local index exactly
    when its first field is [partitionKey], and as a global index otherwise. *)
Definition classifiedBy (partitionKey : option string)
    (definition : ObjectTypeDefinitionNode) (directive : DirectiveNode)
    (ctx : TransformerContext) : Prop :=
  forall old, tableOf ctx definition = Some old ->
    exists new,
      tableOf (updateIndexStructures definition directive ctx).1 definition = Some new
      /\ if decide (head (fields (dir_arguments directive)) = partitionKey)
         then appendedLocal (dir_arguments directive) old new
         else appendedGlobal (dir_arguments directive) old new.

(** The classification in the words of the specification: by the [HASH]
    attribute name of the table's existing primary key schema. *)
Definition classifiedByTableKey (definition : ObjectTypeDefinitionNode)
    (directive : DirectiveNode) (ctx : TransformerContext) : Prop :=
  forall old, tableOf ctx definition = Some old ->
    classifiedBy (tableHashName old) definition directive ctx.

(** In the words of the specification: an old key attribute loses its
    definition only if no key schema of the new table references it. *)
Definition prunedOnlyIfUnreferenced (old new : ResourceProperties) : Prop :=
  forall n, n ∈ keyNames (default [] (KeySchema old)) ->
    n ∈ definedNames old -> n ∉ definedNames new -> n ∉ referencedNames new.

(** The argument the list field gets for the key field [k] at index [i] of
    [n], typed by the base type of the field of that name. *)
Definition listArgument (nonFinal : string -> TypeNode)
    (definition : ObjectTypeDefinitionNode) (n i : nat) (k : string)
    : InputValueDefinitionNode :=
  let base := default EmptyString (getBaseType ∘ fd_type <$> findField (def_fields definition) k) in
  if (i =? n - 1)%nat && negb (n =? 1)%nat
  then makeInputValueDefinition k (makeNamedType (ModelKeyConditionInputTypeName base))
  else makeInputValueDefinition k (nonFinal base).

(** The arguments put in front of the list field's arguments, where
    [nonFinal] types an argument that is not a key condition. *)
Definition listArguments (nonFinal : string -> TypeNode)
    (definition : ObjectTypeDefinitionNode) (fs : list string)
    : list InputValueDefinitionNode :=
  imap (listArgument nonFinal definition (length fs)) fs.

(** The rewrite of the list field: in a context with the list resolver
    [resolver] and the query type [query] whose field [listField] the
    resolver names, the directive leaves the query type with the given
    arguments in front of those of the list field. *)
Definition listFieldRewritten (nonFinal : string -> TypeNode)
    (definition : ObjectTypeDefinitionNode) (directive : DirectiveNode)
    (ctx : TransformerContext) : Prop :=
  forall resolver query listField,
    resources ctx !! DynamoDBListResolverResourceID (def_name definition) = Some resolver ->
    nodeMap ctx !! queryTypeName ctx = Some (ObjectTypeDefinition query) ->
    findResolverField (def_fields query) resolver = Some listField ->
    updateListField definition directive ctx
    = putType (ObjectTypeDefinition
                 (withFields query
                    (replaceField (def_fields query)
                       (withArguments listField
                          (listArguments nonFinal definition (fields (dir_arguments directive))
                           ++ fd_arguments listField))))) ctx.

(** A key field that passed validation: it is a field of the type, non-null,
    with one of the attribute types S, N and B. *)
Definition validField (definition : ObjectTypeDefinitionNode) (ctx : TransformerContext)
    (f : string) : Prop :=
  exists field t,
    fieldMap (def_fields definition) !! f = Some field
    /\ attributeTypeFromType (fd_type field) ctx = Ok t
    /\ isNonNullType (fd_type field) = true
    /\ (t = "S" \/ t = "N" \/ t = "B").

(** The derived hash and range attributes have different names. *)
Definition distinctKeyNames (args : KeyArguments) : Prop :=
  NoDup (omap ks_AttributeName (keySchema args)).

(** Every attribute of the old primary key that a secondary index references
    is an attribute of the key derived from [args]. *)
Definition oldKeyCovered (args : KeyArguments) (old : ResourceProperties) : Prop :=
  forall n, n ∈ keyNames (default [] (KeySchema old)) ->
    n ∈ indexNames (LocalSecondaryIndexes old) ∪ indexNames (GlobalSecondaryIndexes old) ->
    n ∈ keyNames (keySchema args).

(** The violations of the rules for a [@key] directive. *)
Inductive Violation (definition : ObjectTypeDefinitionNode) (directive : DirectiveNode)
    (ctx : TransformerContext) : Prop :=
| duplicatePrimaryKey other :
    isPrimaryKey directive = true -> other ∈ keyDirectives definition ->
    isOther other directive = true -> isPrimaryKey other = true ->
    Violation definition directive ctx
| queryFieldOnPrimaryKey :
    isPrimaryKey directive = true ->
    truthy_string (queryField (dir_arguments directive)) = true ->
    Violation definition directive ctx
| duplicateName other :
    isPrimaryKey directive = false -> other ∈ keyDirectives definition ->
    isOther other directive = true ->
    name (dir_arguments other) = name (dir_arguments directive) ->
    Violation definition directive ctx
| nonExistentField f :
    f ∈ fields (dir_arguments directive) ->
    fieldMap (def_fields definition) !! f = None ->
    Violation definition directive ctx
| nullableField f field :
    f ∈ fields (dir_arguments directive) ->
    fieldMap (def_fields definition) !! f = Some field ->
    isNonNullType (fd_type field) = false ->
    Violation definition directive ctx
| nonScalarField f field :
    f ∈ fields (dir_arguments directive) ->
    fieldMap (def_fields definition) !! f = Some field ->
    (forall t, attributeTypeFromType (fd_type field) ctx = Ok t ->
               t ≠ "S" /\ t ≠ "N" /\ t ≠ "B") ->
    Violation definition directive ctx
| noField :
    fields (dir_arguments directive) = [] ->
    Violation definition directive ctx.

End Tables.

(** The claims of the specification about one application of a directive,
    as it words them. *)
Section Specified.
Context `{External}.

(** The replacement of the primary key: the derived key schema becomes the
    table's, and an old key attribute is pruned only if no key schema that
    remains references it. *)
Definition replacedAsSpecified (definition : ObjectTypeDefinitionNode)
    (directive : DirectiveNode) (ctx : TransformerContext) : Prop :=
  forall old, tableOf ctx definition = Some old ->
    exists new,
      tableOf (updateIndexStructures definition directive ctx).1 definition = Some new
      /\ KeySchema new = Some (keySchema (dir_arguments directive))
      /\ prunedOnlyIfUnreferenced old new.

(** The invariant of the attribute definitions holds after the directive if
    it held before. *)
Definition invariantPreserved (definition : ObjectTypeDefinitionNode)
    (directive : DirectiveNode) (ctx : TransformerContext) : Prop :=
  forall old, tableOf ctx definition = Some old -> attributeInvariant old ->
    exists new,
      tableOf (updateIndexStructures definition directive ctx).1 definition = Some new
      /\ attributeInvariant new.

(** The list field gets a required argument for each key field but the
    last. *)
Definition listFieldAsSpecified (definition : ObjectTypeDefinitionNode)
    (directive : DirectiveNode) (ctx : TransformerContext) : Prop :=
  listFieldRewritten (fun base => makeNonNullType (makeNamedType base))
    definition directive ctx.

End Specified.

(** ** Sample schemas and contexts *)

Module Examples.

Definition field (n : string) (type : TypeNode) : FieldDefinitionNode :=
  {| fd_name := n; fd_arguments := []; fd_type := type |}.

Definition required (n : string) : TypeNode := NonNullType (NamedType n).

Definition argument (n : string) (type : TypeNode) : InputValueDefinitionNode :=
  {| iv_name := n; iv_type := type |}.

Definition model : DirectiveNode :=
  {| dir_ref := 0; dir_name := "model";
     dir_arguments := {| name := None; fields := []; queryField := None |} |}.

Definition key (ref : nat) (n : option string) (fs : list string) : DirectiveNode :=
  {| dir_ref := ref; dir_name := "key";
     dir_arguments := {| name := n; fields := fs; queryField := None |} |}.

Definition resolver (fieldName : string) : Resource :=
  {| Properties :=
       {| KeySchema := None; AttributeDefinitions := None;
          LocalSecondaryIndexes := None; GlobalSecondaryIndexes := None;
          ApiId := Some (FnGetAtt "GraphQLAPI" "ApiId");
          DataSourceName := Some (FnGetAtt "TestDataSource" "Name");
          FieldName := Some fieldName; TypeName := Some "Query";
          RequestMappingTemplate := Some "request";
          ResponseMappingTemplate := Some "response" |} |}.

Definition idKey : list KeySchemaElement :=
  [ {| ks_AttributeName := Some "id"; ks_KeyType := HASH |} ].

Definition idAttribute : list AttributeDefinition :=
  [ {| ad_AttributeName := "id"; ad_AttributeType := "S" |} ].

(** The table the model directive makes for a type: the key is [id]. *)
Definition modelTable : ResourceProperties :=
  {| KeySchema := Some idKey; AttributeDefinitions := Some idAttribute;
     LocalSecondaryIndexes := None; GlobalSecondaryIndexes := None;
     ApiId := None; DataSourceName := None; FieldName := None; TypeName := None;
     RequestMappingTemplate := None; ResponseMappingTemplate := None |}.

Definition listTests : FieldDefinitionNode :=
  {| fd_name := "listTests";
     fd_arguments := [ argument "filter" (NamedType "ModelTestFilterInput");
                       argument "limit" (NamedType "Int");
                       argument "nextToken" (NamedType "String") ];
     fd_type := NamedType "ModelTestConnection" |}.

Definition queryType : ObjectTypeDefinitionNode :=
  {| def_name := "Query";
     def_fields := [ {| fd_name := "getTest";
                        fd_arguments := [argument "id" (required "ID")];
                        fd_type := NamedType "Test" |};
                     listTests ];
     def_directives := [] |}.

(** The context the model directive leaves for the type [Test]. *)
Definition modelContext : TransformerContext :=
  {| resources :=
       <["TestTable" := {| Properties := modelTable |}]>
         (<["GetTestResolver" := resolver "getTest"]>
            (<["ListTestResolver" := resolver "listTests"]> ∅));
     nodeMap := <["Query" := ObjectTypeDefinition queryType]> ∅;
     queryTypeName := "Query";
     stackMapping := ∅ |}.

(** [type Test @model @key(fields: ["email", "kind", "date"])] *)
Definition compositeKey : DirectiveNode := key 1 None ["email"; "kind"; "date"].

Definition compositeType : ObjectTypeDefinitionNode :=
  {| def_name := "Test";
     def_fields := [ field "email" (required "String"); field "kind" (required "Int");
                     field "date" (required "AWSDateTime") ];
     def_directives := [model; compositeKey] |}.

(** [type Test @model @key(name: "testsByEmail", fields: ["email"])] *)
Definition testsByEmail : DirectiveNode := key 1 (Some "testsByEmail") ["email"].

Definition secondaryOnlyType : ObjectTypeDefinitionNode :=
  {| def_name := "Test";
     def_fields := [ field "id" (required "ID"); field "email" (required "String") ];
     def_directives := [model; testsByEmail] |}.

(** [type Test @model @key(name: "byEmail", fields: ["email"])
    @key(fields: ["email", "createdAt"])]: the named directive stands before
    the unnamed one. *)
Definition byEmail : DirectiveNode := key 1 (Some "byEmail") ["email"].
Definition emailCreatedAt : DirectiveNode := key 2 None ["email"; "createdAt"].

Definition secondaryFirstType : ObjectTypeDefinitionNode :=
  {| def_name := "Test";
     def_fields := [ field "id" (required "ID"); field "email" (required "String");
                     field "createdAt" (required "String") ];
     def_directives := [model; byEmail; emailCreatedAt] |}.

(** [type Test @model @key(name: "byOwner", fields: ["owner", "id"])
    @key(fields: ["email"])]: the index of the named directive has the
    model's key [id] as its range attribute. *)
Definition byOwner : DirectiveNode := key 1 (Some "byOwner") ["owner"; "id"].
Definition emailKey : DirectiveNode := key 2 None ["email"].

Definition indexedIdType : ObjectTypeDefinitionNode :=
  {| def_name := "Test";
     def_fields := [ field "id" (required "ID"); field "owner" (required "String");
                     field "email" (required "String") ];
     def_directives := [model; byOwner; emailKey] |}.

(** The context after the named directive of [indexedIdType]. *)
Definition byOwnerContext : TransformerContext :=
  (@updateIndexStructures sampleExternal indexedIdType byOwner modelContext).1.

(** [type Test @model @key(fields: ["email"])] with a nullable [email]. *)
Definition nullableType : ObjectTypeDefinitionNode :=
  {| def_name := "Test";
     def_fields := [ field "email" (NamedType "String") ];
     def_directives := [model; emailKey] |}.

End Examples.

(** A flag that is set to true. *)
Definition flagTrue (flags : gmap string bool) (v : string) : bool :=
  bool_decide (flags !! v = Some true).

(** Concatenation as the combining function of a union of maps. *)
Definition concat2 (x y : list (list string)) : option (list (list string)) :=
  Some (x ++ y).

(** The merge in the words of the specification: for every key present in
    either operand, the value is the concatenation of both operands' lists
    for that key, the left operand's entries first. *)
Definition mergedMap (a b : ReferenceMap) : ReferenceMap := union_with concat2 a b.

(** No key of the map is a name of [Object.prototype]. *)
Definition plain (m : ReferenceMap) : Prop :=
  forall k, is_Some (m !! k) -> inherited k = false.

(** Some key of [b] is a name of [Object.prototype] that [a] does not own. *)
Definition clash (a b : ReferenceMap) : Prop :=
  map_Exists (fun k _ => a !! k = None /\ inherited k = true) b.

(** ** Further notions for the reference walk *)

(** A [null] that the walk comes to: at the node itself, or below a list
    element or an object field of a node that is not taken as a reference
    node. *)
Fixpoint reachesNull (node : json) : bool :=
  match node with
  | JNull => true
  | JObj fields =>
      match referenceOf fields with
      | Some _ => false
      | None => existsb (fun kv => reachesNull kv.2) fields
      end
  | JArr items => existsb reachesNull items
  | _ => false
  end.

(** An object node that is taken as a reference node and records a name of
    [Object.prototype]. *)
Definition inheritedReference (node : json) : bool :=
  match node with
  | JObj fields =>
      match referenceOf fields with
      | Some r => inherited r
      | None => false
      end
  | _ => false
  end.

(** A reference to a name of [Object.prototype] whose map the walk merges:
    the reference node is a list element or an object field of a node the
    walk descends into, at any depth; the root itself is not merged. *)
Fixpoint mergesInherited (node : json) : bool :=
  match node with
  | JObj fields =>
      match referenceOf fields with
      | Some _ => false
      | None => existsb (fun kv => inheritedReference kv.2 || mergesInherited kv.2) fields
      end
  | JArr items => existsb (fun n => inheritedReference n || mergesInherited n) items
  | _ => false
  end.

(** What a walk gives: a [TypeError] when it comes to a [null] or merges a
    reference to a name of [Object.prototype], and a map otherwise, which
    has such a name as a key only if the node itself is a reference to it. *)
Definition walkOutcome (node : json) (r : Result ReferenceMap) : Prop :=
  match r with
  | Ok m =>
      reachesNull node = false /\ mergesInherited node = false
      /\ (plain m <-> inheritedReference node = false)
  | Err e =>
      e = TypeError /\ ((reachesNull node || mergesInherited node) = true)
  end.


(** ** Further notions for the key transformer *)

Section KeyNotions.
Context `{External}.

(** The rules of [validate] on the names of the [@key] directives of a type:
    beside an unnamed directive there is no other unnamed one, and it has no
    [queryField]; beside a named directive there is no other of its name. *)
Definition uniquelyNamed (definition : ObjectTypeDefinitionNode)
    (directive : DirectiveNode) : Prop :=
  if isPrimaryKey directive
  then (forall other, other ∈ keyDirectives definition ->
          isOther other directive = true -> isPrimaryKey other = false)
       /\ truthy_string (queryField (dir_arguments directive)) = false
  else forall other, other ∈ keyDirectives definition ->
         isOther other directive = true ->
         name (dir_arguments other) ≠ name (dir_arguments directive).

(** The field of a name that the field map holds, and its attribute type. *)
Definition fieldTyped (definition : ObjectTypeDefinitionNode) (ctx : TransformerContext)
    (f t : string) : Prop :=
  exists field,
    fieldMap (def_fields definition) !! f = Some field
    /\ attributeTypeFromType (fd_type field) ctx = Ok t.

(** The required argument for a key field: non-null, of the base type of the
    field of that name. *)
Definition requiredKeyArgument (definition : ObjectTypeDefinitionNode) (k : string)
    : InputValueDefinitionNode :=
  makeInputValueDefinition k
    (makeNonNullType
       (makeNamedType
          (default EmptyString
             (getBaseType ∘ fd_type <$> findField (def_fields definition) k)))).

(** What a field of the create input becomes: a required field if it is a
    key field or a non-null field of the type, an optional field if it is a
    nullable field of the type, and nothing if the type has no field of its
    name. *)
Definition createInputField (definition : ObjectTypeDefinitionNode)
    (keyFields : list string) (f : InputValueDefinitionNode)
    : list InputValueDefinitionNode :=
  if isKeyField keyFields (iv_name f)
     || default false (isNonNullType ∘ fd_type <$> findField (def_fields definition) (iv_name f))
  then [makeInputValueDefinition (iv_name f)
          (makeNonNullType (makeNamedType (getBaseType (iv_type f))))]
  else if bool_decide (is_Some (findField (def_fields definition) (iv_name f)))
  then [makeInputValueDefinition (iv_name f) (makeNamedType (getBaseType (iv_type f)))]
  else [].

End KeyNotions.

(** ** Relations between the context before and after a computation *)

(** The computation leaves the context in the relation [R] to the one it
    started from, whether it returns or throws. *)
Definition preserves {A} (R : TransformerContext -> TransformerContext -> Prop)
    (m : M A) : Prop :=
  forall ctx, R ctx (m ctx).1.

(** Nothing is removed: every resource id and every type name is still there,
    the name of the query type is the same, and every pattern of the stack
    mapping is still mapped. *)
Definition grows (ctx ctx' : TransformerContext) : Prop :=
  dom (resources ctx) ⊆ dom (resources ctx')
  /\ dom (nodeMap ctx) ⊆ dom (nodeMap ctx')
  /\ queryTypeName ctx' = queryTypeName ctx
  /\ dom (stackMapping ctx) ⊆ dom (stackMapping ctx').

(** Nothing but the resource [id] is written. *)
Definition onlyResource (id : string) (ctx ctx' : TransformerContext) : Prop :=
  nodeMap ctx' = nodeMap ctx
  /\ queryTypeName ctx' = queryTypeName ctx
  /\ stackMapping ctx' = stackMapping ctx
  /\ forall id', id' ≠ id -> resources ctx' !! id' = resources ctx !! id'.

(** The resource [r'] is [r] with text put in front of its request mapping
    template; a template that is not there reads [undefined]. *)
Definition templateExtended (r r' : Resource) : Prop :=
  withRequestMappingTemplate r' EmptyString = withRequestMappingTemplate r EmptyString
  /\ exists front,
       show (RequestMappingTemplate (Properties r'))
       = front +:+ show (RequestMappingTemplate (Properties r)).

(** Only request mapping templates are written, and only by putting text in
    front of them: no resource comes or goes, and the types, the name of the
    query type and the stack mapping are as they were. *)
Definition templatesExtended (ctx ctx' : TransformerContext) : Prop :=
  nodeMap ctx' = nodeMap ctx
  /\ queryTypeName ctx' = queryTypeName ctx
  /\ stackMapping ctx' = stackMapping ctx
  /\ forall id,
       match resources ctx !! id, resources ctx' !! id with
       | Some r, Some r' => templateExtended r r'
       | None, None => True
       | _, _ => False
       end.

(** ** The blank nested template *)

Section BlankNestedTemplate.
(** [ResourceConstants.PARAMETERS.AppSyncApiId], which is not among the
    sources, and [new StringParameter(properties)] of cloudform-types in its
    JSON form. *)
Variable AppSyncApiId : string.
Variable StringParameter : list (string * json) -> json.

(** The parameters of [blankNestedTemplate(params)]: the object literal
    [{ [AppSyncApiId]: new StringParameter(...), ...params }]. *)
Definition blankParameters (params : list (string * json)) : list (string * json) :=
  js_object
    ((AppSyncApiId,
      StringParameter
        [("Description",
          JStr "The id of the AppSync API associated with this project.")])
     :: params).

(** [blankNestedTemplate(params)]; [params] holds the entries of the
    parameter object in the order of its keys. *)
Definition blankNestedTemplate (params : list (string * json)) : json :=
  JObj [ ("AWSTemplateFormatVersion", JStr "2010-09-09");
         ("Description", JStr "A nested stack generated by the GraphQL transform.");
         ("Metadata", JObj []);
         ("Parameters", JObj (blankParameters params));
         ("Resources", JObj []);
         ("Outputs", JObj []) ].

End BlankNestedTemplate.

(** ** Setting a flag of the read-authorization gate *)

Module AuthMore.

(** Modelled from the spec: the run of an assignment of a boolean literal to
    a flag, which sets the flag; [None] for an expression that is not
    one. *)
Definition assign (flags : gmap string bool) (e : Expression) : option (gmap string bool) :=
  match e with
  | Vtl.set (Vtl.ref v) (Vtl.raw "true") => Some (<[v := true]> flags)
  | Vtl.set (Vtl.ref v) (Vtl.raw "false") => Some (<[v := false]> flags)
  | _ => None
  end.

(** [isNotAuthProtectedSnippet()] *)
Definition isNotAuthProtectedSnippet (IsNotAuthProtectedVariable : string) : Expression :=
  Vtl.set (Vtl.ref IsNotAuthProtectedVariable) (Vtl.raw "true").

End AuthMore.

(** ** More sample schemas and contexts *)

Module MoreExamples.
Import Examples.

(** A context in which the model directive has made nothing. *)
Definition emptyContext : TransformerContext :=
  {| resources := ∅; nodeMap := ∅; queryTypeName := "Query"; stackMapping := ∅ |}.

(** [@key(name: "byEmail", fields: ["email", "createdAt"], queryField:
    "testsByEmail")] *)
Definition byEmailQuery : DirectiveNode :=
  {| dir_ref := 3; dir_name := "key";
     dir_arguments := {| name := Some "byEmail"; fields := ["email"; "createdAt"];
                         queryField := Some "testsByEmail" |} |}.

Definition queryFieldType : ObjectTypeDefinitionNode :=
  {| def_name := "Test";
     def_fields := [ field "id" (required "ID"); field "email" (required "String");
                     field "createdAt" (required "String") ];
     def_directives := [model; byEmailQuery] |}.

End MoreExamples.

(** Unfolds the plumbing of a computation on the context. *)
Ltac run := unfold bind, lift, ret, throw, reads, getResource, getType, getQuery; simpl.

(** * Theorems *)

(** ** Reference maps *)

Section ReferenceMaps.
Implicit Types a b c : ReferenceMap.

Lemma mergedMap_lookup a b k :
  mergedMap a b !! k =
    match a !! k, b !! k with
    | Some x, Some y => Some (x ++ y)
    | Some x, None => Some x
    | None, y => y
    end.
Proof.
  unfold mergedMap. rewrite lookup_union_with.
  by destruct (a !! k), (b !! k).
Qed.

Lemma mergedMap_lookup_total a b k :
  mergedMap a b !!! k = a !!! k ++ b !!! k.
Proof.
  rewrite !lookup_total_alt, mergedMap_lookup.
  destruct (a !! k), (b !! k); simpl; by rewrite ?app_nil_r.
Qed.

Lemma mergedMap_insert a b i x :
  b !! i = None ->
  mergedMap a (<[i:=x]> b)
  = <[i := match a !! i with Some l => l ++ x | None => x end]> (mergedMap a b).
Proof.
  intros Hi. apply map_eq; intros k.
  destruct (decide (i = k)) as [->|Hne].
  - rewrite lookup_insert_eq, mergedMap_lookup, lookup_insert_eq.
    by destruct (a !! k).
  - rewrite lookup_insert_ne by done.
    by rewrite !mergedMap_lookup, lookup_insert_ne by done.
Qed.

(** The merge throws exactly on a clash, and returns the merged map
    otherwise. *)
Lemma mergeReferenceMaps_either a b :
  (clash a b /\ mergeReferenceMaps a b = Err TypeError)
  \/ (~ clash a b /\ mergeReferenceMaps a b = Ok (mergedMap a b)).
Proof.
  unfold mergeReferenceMaps, clash.
  set (P := fun (k : string) (_ : list (list string)) => a !! k = None /\ inherited k = true).
  apply (map_fold_weak_ind
           (fun r m =>
              (map_Exists P m /\ r = Err TypeError)
              \/ (~ map_Exists P m /\ r = Ok (mergedMap a m)))).
  - right. split; [apply map_Exists_empty|].
    f_equal. apply map_eq; intros k. rewrite mergedMap_lookup, lookup_empty.
    by destruct (a !! k).
  - intros i x m r Hi [[Hex ->]|[Hno ->]].
    + left. split; [|done]. apply map_Exists_insert; [done|]. by right.
    + assert (mergedMap a m !! i = a !! i) as ->.
      { rewrite mergedMap_lookup, Hi. by destruct (a !! i). }
      rewrite mergedMap_insert by done.
      destruct (a !! i) as [l|] eqn:Ha.
      * right. split; [|done].
        intros Hex. apply map_Exists_insert in Hex as [[Hnone _]|Hex]; [|done|done].
        congruence.
      * destruct (inherited i) eqn:Hinh.
        -- left. split; [|done]. apply map_Exists_insert; [done|]. by left.
        -- right. split; [|done].
           intros Hex. apply map_Exists_insert in Hex as [[_ Hi']|Hex]; [|done|done].
           congruence.
Qed.

Lemma mergeReferenceMaps_cases a b :
  mergeReferenceMaps a b
  = if decide (clash a b) then Err TypeError else Ok (mergedMap a b).
Proof.
  destruct (mergeReferenceMaps_either a b) as [[Hc ->]|[Hc ->]].
  - by rewrite decide_True.
  - by rewrite decide_False.
Qed.

Lemma clash_plain a b : plain b -> ~ clash a b.
Proof.
  intros Hplain (k & v & Hk & _ & Hinh).
  rewrite (Hplain k) in Hinh by eauto. discriminate Hinh.
Qed.

Lemma no_clash_plain a b : plain a -> ~ clash a b -> plain b.
Proof.
  intros Ha Hno k [v Hk].
  destruct (inherited k) eqn:Hinh; [|done].
  exfalso. apply Hno. exists k, v. split; [done|]. split; [|done].
  destruct (a !! k) eqn:Hak; [|done].
  rewrite (Ha k) in Hinh by eauto. discriminate Hinh.
Qed.

Lemma mergedMap_plain a b : plain a -> plain b -> plain (mergedMap a b).
Proof.
  intros Ha Hb k [v Hk]. rewrite mergedMap_lookup in Hk.
  destruct (a !! k) eqn:Hak; [apply Ha; by rewrite Hak|].
  apply Hb. by rewrite Hk.
Qed.

Lemma mergeReferenceMaps_plain a b :
  plain b -> mergeReferenceMaps a b = Ok (mergedMap a b).
Proof.
  intros Hb. rewrite mergeReferenceMaps_cases.
  by rewrite decide_False by by apply clash_plain.
Qed.

Lemma plain_empty : plain ∅.
Proof. intros k [v Hk]. by rewrite lookup_empty in Hk. Qed.

Lemma plain_singleton r (paths : list (list string)) :
  plain {[ r := paths ]} <-> inherited r = false.
Proof.
  split.
  - intros Hp. apply Hp. rewrite lookup_singleton_eq. by eexists.
  - intros Hr k [v Hk]. apply lookup_singleton_Some in Hk as [<- _]. done.
Qed.

(** C6: the merge of the empty map with the map that records one reference
    to the name [constructor] throws a [TypeError]: the empty map is no
    identity of the merge at that map. *)
Theorem mergeReferenceMaps_inherited_name :
  mergeReferenceMaps ∅ {[ "constructor" := [["Resources"; "Foo"; "Properties"; "Bar"]] ]}
  = Err TypeError.
Proof.
  rewrite mergeReferenceMaps_cases. apply decide_True.
  eexists "constructor", _. split; [apply lookup_singleton_eq|].
  split; [apply lookup_empty|reflexivity].
Qed.

End ReferenceMaps.

(** ** The reference walk *)

Section Walk.
Import WalkSpec.

(** Induction on a tree, with the property for every element of a list node
    and every field of an object node. *)
Lemma json_nested_ind (P : json -> Prop) :
  P JUndefined -> P JNull -> (forall b, P (JBool b)) -> (forall n, P (JNum n)) ->
  (forall s, P (JStr s)) ->
  (forall items, Forall P items -> P (JArr items)) ->
  (forall fields, Forall (fun kv => P kv.2) fields -> P (JObj fields)) ->
  forall node, P node.
Proof.
  intros Hu Hn Hb Hz Hs Ha Ho.
  fix IH 1. intros [| |b|n|s|items|fields].
  - exact Hu.
  - exact Hn.
  - apply Hb.
  - apply Hz.
  - apply Hs.
  - apply Ha. induction items as [|x items IHitems]; constructor.
    + apply IH.
    + exact IHitems.
  - apply Ho. induction fields as [|[k v] fields IHfields]; constructor.
    + apply IH.
    + exact IHfields.
Qed.

(** One turn of either loop of the walk: the map of a child is merged into
    a map without inherited names. *)
Lemma walk_turn (child : json) (r : Result ReferenceMap) acc
    (rest : ReferenceMap -> Result ReferenceMap) (nulls merges : bool) :
  walkOutcome child r ->
  plain acc ->
  (forall acc', plain acc' ->
     match rest acc' with
     | Ok m => nulls = false /\ merges = false /\ plain m
     | Err e => e = TypeError /\ (nulls || merges) = true
     end) ->
  match
    match r with
    | Ok refsForKey =>
        match mergeReferenceMaps acc refsForKey with
        | Ok refsFromAllKeys => rest refsFromAllKeys
        | Err e => Err e
        end
    | Err e => Err e
    end
  with
  | Ok m =>
      reachesNull child || nulls = false
      /\ (inheritedReference child || mergesInherited child) || merges = false
      /\ plain m
  | Err e =>
      e = TypeError
      /\ ((reachesNull child || nulls)
          || ((inheritedReference child || mergesInherited child) || merges) = true)
  end.
Proof.
  intros Hchild Hacc Hrest. destruct r as [mn|e]; simpl in Hchild.
  - destruct Hchild as (Hnull & Hmerges & Hplain).
    rewrite Hnull, Hmerges. rewrite mergeReferenceMaps_cases.
    destruct (decide (clash acc mn)) as [Hclash|Hno].
    + split; [done|].
      destruct (inheritedReference child); [by rewrite orb_true_r|].
      exfalso. by apply (clash_plain acc mn); [apply Hplain|].
    + assert (plain mn) as Hmn by by apply (no_clash_plain acc).
      rewrite (proj1 Hplain Hmn). simpl.
      apply Hrest. by apply mergedMap_plain.
  - destruct Hchild as [-> Hthrows]. split; [done|].
    destruct (reachesNull child), (mergesInherited child); try done; simpl.
    by rewrite !orb_true_r.
Qed.

Lemma walk_outcome node : forall path, walkOutcome node (walk node path).
Proof.
  induction node as [| | | | |items IH|fields IH] using json_nested_ind;
    intros path;
    try (simpl; repeat split; solve [done | intros; apply plain_empty]).
  - (* a list *)
    simpl.
    assert (forall i acc, plain acc ->
      match
        (fix keys (ns : list json) (i : nat) (refsFromAllKeys : ReferenceMap) :=
           match ns with
           | [] => Ok refsFromAllKeys
           | n :: rest =>
               match walk n (path ++ [pretty i]) with
               | Ok refsForKey =>
                   match mergeReferenceMaps refsFromAllKeys refsForKey with
                   | Ok refsFromAllKeys => keys rest (S i) refsFromAllKeys
                   | Err e => Err e
                   end
               | Err e => Err e
               end
           end) items i acc
      with
      | Ok m =>
          existsb reachesNull items = false
          /\ existsb (fun n => inheritedReference n || mergesInherited n) items = false
          /\ plain m
      | Err e =>
          e = TypeError
          /\ (existsb reachesNull items
              || existsb (fun n => inheritedReference n || mergesInherited n) items = true)
      end) as Hloop.
    { induction items as [|n rest IHrest]; intros i acc Hacc; [done|].
      apply Forall_cons in IH as [Hn Hrest].
      cbn [existsb].
      apply (walk_turn n (walk n (path ++ [pretty i])) acc); [apply Hn|done|].
      intros acc' Hacc'. by apply IHrest. }
    specialize (Hloop 0 ∅ plain_empty).
    destruct (_ items 0 ∅) as [m|e]; [|done].
    destruct Hloop as (Hnull & Hmerges & Hplain). by repeat split.
  - (* an object *)
    unfold walkOutcome, inheritedReference. simpl.
    destruct (referenceOf fields) as [r|] eqn:Href.
    { split; [done|]. split; [done|]. apply plain_singleton. }
    clear Href.
    assert (forall acc, plain acc ->
      match
        (fix keys (fs : list (string * json)) (refsFromAllKeys : ReferenceMap) :=
           match fs with
           | [] => Ok refsFromAllKeys
           | (key, v) :: rest =>
               match walk v (path ++ [key]) with
               | Ok refsForKey =>
                   match mergeReferenceMaps refsFromAllKeys refsForKey with
                   | Ok refsFromAllKeys => keys rest refsFromAllKeys
                   | Err e => Err e
                   end
               | Err e => Err e
               end
           end) fields acc
      with
      | Ok m =>
          existsb (fun kv => reachesNull kv.2) fields = false
          /\ existsb (fun kv => inheritedReference kv.2 || mergesInherited kv.2) fields
             = false
          /\ plain m
      | Err e =>
          e = TypeError
          /\ (existsb (fun kv => reachesNull kv.2) fields
              || existsb (fun kv => inheritedReference kv.2 || mergesInherited kv.2) fields
              = true)
      end) as Hloop.
    { induction fields as [|[key v] rest IHrest]; intros acc Hacc; [done|].
      apply Forall_cons in IH as [Hv Hrest]. simpl in Hv.
      cbn [existsb snd].
      apply (walk_turn v (walk v (path ++ [key])) acc); [apply Hv|done|].
      intros acc' Hacc'. by apply IHrest. }
    specialize (Hloop ∅ plain_empty).
    destruct (_ fields ∅) as [m|e]; [|done].
    destruct Hloop as (Hnull & Hmerges & Hplain). by repeat split.
Qed.






(** C7: the walk of the tree with a reference to the name [constructor] at
    [Resources.Foo.Properties.Bar] throws a [TypeError] where the map with
    the one entry [constructor] and that one path is to be returned; the
    same tree with the name [Foo] gives the map with the one entry [Foo]. *)
Theorem walk_inherited_name_throws :
  getTemplateReferences inheritedNameTemplate = Err TypeError
  /\ getTemplateReferences exampleTemplate
     = Ok {[ "Foo" := [["Resources"; "Foo"; "Properties"; "Bar"]] ]}.
Proof.
  split.
  - pose proof (walk_outcome inheritedNameTemplate []) as Hout.
    unfold getTemplateReferences.
    destruct (walk inheritedNameTemplate []) as [m|e].
    + destruct Hout as (_ & Hmerges & _). discriminate Hmerges.
    + by destruct Hout as [-> _].
  - reflexivity.
Qed.

End Walk.

(** ** The key transformer *)

Section KeyTheorems.
Context `{External}.

(** *** What validation establishes *)

Lemma validateFields_valid definition args ctx fs :
  validateFields definition args ctx (fieldMap (def_fields definition)) fs = Ok tt ->
  Forall (validField definition ctx) fs.
Proof.
  induction fs as [|f fs IH]; simpl; intros Hv; [constructor|].
  destruct (fieldMap (def_fields definition) !! f) as [field|] eqn:Hf; [|discriminate].
  destruct (attributeTypeFromType (fd_type field) ctx) as [t|] eqn:Ht; [|discriminate].
  simpl in Hv.
  destruct (isNonNullType (fd_type field)) eqn:Hnn; [|discriminate]. simpl in Hv.
  destruct (negb (String.eqb t "S") && negb (String.eqb t "N") && negb (String.eqb t "B"))
    eqn:Hscalar; [discriminate|].
  constructor; [|by apply IH].
  exists field, t. repeat split; try done.
  destruct (String.eqb_spec t "S"); [by left|].
  destruct (String.eqb_spec t "N"); [by right; left|].
  destruct (String.eqb_spec t "B"); [by right; right|].
  discriminate.
Qed.

Lemma validate_valid definition directive ctx :
  validate definition directive ctx = Ok tt ->
  Forall (validField definition ctx) (fields (dir_arguments directive)).
Proof.
  unfold validate, rbind. intros Hv.
  apply (validateFields_valid definition (dir_arguments directive)).
  by repeat match type of Hv with
            | (match (if ?c then _ else _) with _ => _ end) = _ => destruct c
            | _ => done
            end.
Qed.

(** A field of the field map is found by [find], maybe an earlier one of the
    same name. *)
Lemma fieldMap_lookup_elem fs (m : gmap string FieldDefinitionNode) n f :
  foldl (fun m field => <[fd_name field := field]> m) m fs !! n = Some f ->
  m !! n = Some f \/ (f ∈ fs /\ fd_name f = n).
Proof.
  revert m. induction fs as [|g fs IH]; simpl; intros m Hl; [by left|].
  destruct (IH _ Hl) as [Hm|[Hin Hn]].
  - destruct (decide (fd_name g = n)) as [<-|Hne].
    + rewrite lookup_insert_eq in Hm. injection Hm as <-. right. split; [left|done].
    + rewrite lookup_insert_ne in Hm by done. by left.
  - right. split; [by right|done].
Qed.

Lemma fieldMap_findField fs n f :
  fieldMap fs !! n = Some f -> exists f', findField fs n = Some f'.
Proof.
  intros Hl. apply fieldMap_lookup_elem in Hl as [Hl|[Hin Hn]].
  - by rewrite lookup_empty in Hl.
  - unfold findField. destruct (List.find _ fs) as [f'|] eqn:Hfind; [by eexists|].
    apply list_elem_of_In in Hin.
    apply (find_none _ _ Hfind) in Hin. subst n.
    by rewrite String.eqb_refl in Hin.
Qed.

Lemma validField_found definition ctx f :
  validField definition ctx f -> exists t, typeOfFound definition f = Ok t.
Proof.
  intros (field & t & Hf & _). unfold typeOfFound.
  destruct (fieldMap_findField _ _ _ Hf) as [f' ->]. by eexists.
Qed.

(** *** The derived key schema and attribute definitions *)

Lemma attributeDefinitions_names args definition ctx ads :
  attributeDefinitions args definition ctx = Ok ads ->
  fields args ≠ [] /\ map ad_AttributeName ads = omap ks_AttributeName (keySchema args).
Proof.
  unfold attributeDefinitions, keySchema, typeOfField, rbind.
  destruct (fields args) as [|f0 [|f1 [|f2 rest]]]; simpl; [discriminate|..];
    repeat match goal with
           | |- context [match ?m !! ?k with _ => _ end] => destruct (m !! k)
           | |- context [match attributeTypeFromType ?t ?c with _ => _ end] =>
               destruct (attributeTypeFromType t c)
           | |- _ => simpl
           end; try discriminate; intros [= <-]; done.
Qed.

Lemma attributeDefinitions_valid args definition ctx :
  Forall (validField definition ctx) (fields args) -> fields args ≠ [] ->
  exists ads, attributeDefinitions args definition ctx = Ok ads.
Proof.
  unfold attributeDefinitions, typeOfField, rbind.
  destruct (fields args) as [|f0 [|f1 [|f2 rest]]]; intros Hv Hne; [done|..];
    repeat match goal with
           | Hv : Forall _ (_ :: _) |- _ =>
               apply Forall_cons in Hv as [(? & ? & -> & -> & _) Hv]
           end; simpl; by eexists.
Qed.

(** C1: for a key directive with at least three fields the derived key
    schema is the first field as HASH and the other fields joined by [#] as
    RANGE; the derived attribute definitions, whenever the function returns
    them, are two entries, the second for the joined name with type S; and
    for a validated directive the function returns them. *)
Theorem composite_key_condensed definition directive ctx f0 f1 f2 rest :
  fields (dir_arguments directive) = f0 :: f1 :: f2 :: rest ->
  keySchema (dir_arguments directive)
  = [ {| ks_AttributeName := Some f0; ks_KeyType := HASH |};
      {| ks_AttributeName := Some (String.concat "#" (f1 :: f2 :: rest));
         ks_KeyType := RANGE |} ]
  /\ (forall ads,
        attributeDefinitions (dir_arguments directive) definition ctx = Ok ads ->
        length ads = 2
        /\ ads !! 1 = Some {| ad_AttributeName := String.concat "#" (f1 :: f2 :: rest);
                              ad_AttributeType := "S" |}
        /\ ad_AttributeName <$> ads !! 0 = Some f0)
  /\ (validate definition directive ctx = Ok tt ->
      exists ads, attributeDefinitions (dir_arguments directive) definition ctx = Ok ads).
Proof.
  intros Hfields. split; [|split].
  - unfold keySchema. by rewrite Hfields.
  - unfold attributeDefinitions, typeOfField, rbind. rewrite Hfields. intros ads.
    destruct (fieldMap (def_fields definition) !! f0) as [field|]; [|discriminate].
    destruct (attributeTypeFromType (fd_type field) ctx); [|discriminate].
    by intros [= <-].
  - intros Hv. apply attributeDefinitions_valid.
    + by apply validate_valid.
    + by rewrite Hfields.
Qed.

(** *** The loops over attribute definitions *)

Lemma filter_agree {A} (P Q : A -> Prop) `{!forall x, Decision (P x), !forall x, Decision (Q x)}
    (l : list A) :
  (forall x, x ∈ l -> P x <-> Q x) -> filter P l = filter Q l.
Proof.
  induction l as [|x l IH]; intros Hpq; [done|].
  rewrite !filter_cons.
  assert (P x <-> Q x) as Hx by (apply Hpq; left).
  rewrite IH by (intros y Hy; apply Hpq; by right).
  destruct (decide (P x)), (decide (Q x)); tauto.
Qed.

Lemma elem_of_attributeNames n ads :
  n ∈ attributeNames ads <-> exists ad, ad ∈ ads /\ ad_AttributeName ad = n.
Proof.
  unfold attributeNames. rewrite elem_of_list_to_set, list_elem_of_In, in_map_iff.
  split; intros (ad & H1 & H2); exists ad; by rewrite ?list_elem_of_In in *.
Qed.

Lemma elem_of_keyNames n ks :
  n ∈ keyNames ks <-> exists k, k ∈ ks /\ ks_AttributeName k = Some n.
Proof. unfold keyNames. by rewrite elem_of_list_to_set, list_elem_of_omap. Qed.

Lemma keyNames_cons k ks :
  keyNames (k :: ks)
  = match ks_AttributeName k with Some n => {[n]} | None => ∅ end ∪ keyNames ks.
Proof.
  unfold keyNames. simpl. destruct (ks_AttributeName k); simpl; [done|].
  by rewrite (left_id_L ∅ (∪)).
Qed.

(** The loop over the old key schema removes the definitions of the old key
    attributes, and their names from the set. *)
Lemma foldl_pruneKey ads oldKeys (K : gset string) :
  foldl pruneKey (filter (fun ad => ad_AttributeName ad ∉ K) ads, attributeNames ads ∖ K)
        oldKeys
  = (filter (fun ad => ad_AttributeName ad ∉ K ∪ keyNames oldKeys) ads,
     attributeNames ads ∖ (K ∪ keyNames oldKeys)).
Proof.
  revert K. induction oldKeys as [|k oldKeys IH]; intros K; simpl.
  - unfold keyNames; simpl. by rewrite (right_id_L ∅ (∪)).
  - rewrite keyNames_cons. unfold pruneKey at 2; simpl.
    destruct (ks_AttributeName k) as [n|].
    + assert (K ∪ ({[n]} ∪ keyNames oldKeys) = (K ∪ {[n]}) ∪ keyNames oldKeys) as ->
        by set_solver.
      rewrite <- (IH (K ∪ {[n]})). f_equal.
      destruct (decide (n ∈ attributeNames ads ∖ K)) as [Hin|Hout].
      * f_equal; [|set_solver].
        rewrite list_filter_filter. apply list_filter_iff. set_solver.
      * f_equal; [|set_solver].
        apply filter_agree. intros ad Had.
        assert (ad_AttributeName ad ∈ attributeNames ads)
          by (apply elem_of_attributeNames; eauto).
        set_solver.
    + by rewrite (left_id_L ∅ (∪)).
Qed.

Lemma foldl_pruneKey_all ads oldKeys :
  foldl pruneKey (ads, attributeNames ads) oldKeys
  = (filter (fun ad => ad_AttributeName ad ∉ keyNames oldKeys) ads,
     attributeNames ads ∖ keyNames oldKeys).
Proof.
  assert (forall K : gset string, K = ∅ ->
            filter (fun ad => ad_AttributeName ad ∉ K) ads = ads) as Hall.
  { intros K ->. induction ads as [|ad ads IH]; [done|].
    rewrite filter_cons_True by apply not_elem_of_empty. by rewrite IH. }
  pose proof (foldl_pruneKey ads oldKeys ∅) as Hp.
  by rewrite (left_id_L ∅ (∪)), (difference_empty_L (attributeNames ads)),
       (Hall ∅ eq_refl) in Hp.
Qed.

Lemma pushMissing_filter (S : gset string) ads attrDefs :
  pushMissing S ads attrDefs
  = ads ++ filter (fun attr => ad_AttributeName attr ∉ S) attrDefs.
Proof.
  unfold pushMissing. revert ads.
  induction attrDefs as [|attr attrDefs IH]; intros ads; simpl.
  - by rewrite app_nil_r.
  - rewrite IH, filter_cons.
    destruct (decide (ad_AttributeName attr ∈ S)) as [Hin|Hout].
    + by rewrite decide_False by (intros Hn; by apply Hn).
    + rewrite decide_True by done. by rewrite <- app_assoc.
Qed.

(** *** Running the two index updates *)

Lemma tableOf_resource ctx definition old :
  tableOf ctx definition = Some old ->
  resources ctx !! ModelTableResourceID (def_name definition) = Some {| Properties := old |}.
Proof.
  unfold tableOf. destruct (resources ctx !! _) as [[p]|]; simpl; [|done].
  by intros [= ->].
Qed.

Lemma tableOf_writeResource ctx definition r :
  tableOf (writeResource (ModelTableResourceID (def_name definition)) r ctx).1 definition
  = Some (Properties r).
Proof. unfold tableOf, writeResource, setResource. simpl. by rewrite lookup_insert_eq. Qed.

(** The attribute definitions a primary replacement leaves: the old ones
    without those of the old key, then the derived ones whose name is not
    among the names that are left. *)
Lemma replacePrimaryKey_run definition directive ctx attrDefs old ads oldKeys :
  attributeDefinitions (dir_arguments directive) definition ctx = Ok attrDefs ->
  tableOf ctx definition = Some old ->
  AttributeDefinitions old = Some ads -> KeySchema old = Some oldKeys ->
  replacePrimaryKey definition directive ctx
  = writeResource (ModelTableResourceID (def_name definition))
      {| Properties :=
           withTable old (Some (keySchema (dir_arguments directive)))
             (Some (filter (fun ad => ad_AttributeName ad ∉ keyNames oldKeys) ads
                    ++ filter (fun attr => ad_AttributeName attr
                                           ∉ attributeNames ads ∖ keyNames oldKeys) attrDefs))
             (LocalSecondaryIndexes old) (GlobalSecondaryIndexes old) |} ctx.
Proof.
  intros Hattr Htable Hads Hkeys. apply tableOf_resource in Htable.
  unfold replacePrimaryKey. run. rewrite Hattr, Htable. simpl.
  rewrite Hads, Hkeys, foldl_pruneKey_all. by rewrite pushMissing_filter.
Qed.

Lemma head_keySchema args :
  head (keySchema args) ≫= ks_AttributeName = head (fields args).
Proof. unfold keySchema. by destruct (1 <? length (fields args))%nat. Qed.

(** The table a secondary directive leaves: the index is appended to the
    local or to the global indexes, and then the derived attribute
    definitions that are not defined yet are pushed. *)
Lemma appendSecondaryIndex_run definition directive ctx attrDefs old :
  attributeDefinitions (dir_arguments directive) definition ctx = Ok attrDefs ->
  tableOf ctx definition = Some old ->
  let args := dir_arguments directive in
  let lsi :=
    if decide (primaryPartitionKeyName definition = head (fields args))
    then Some (append (LocalSecondaryIndexes old) (localSecondaryIndex args (keySchema args)))
    else LocalSecondaryIndexes old in
  let gsi :=
    if decide (primaryPartitionKeyName definition = head (fields args))
    then GlobalSecondaryIndexes old
    else Some (append (GlobalSecondaryIndexes old) (globalSecondaryIndex args (keySchema args))) in
  tableOf (appendSecondaryIndex definition directive ctx).1 definition
  = Some (withTable old (KeySchema old)
            ((fun ads => ads ++ filter (fun attr => ad_AttributeName attr ∉ attributeNames ads)
                                       attrDefs) <$> AttributeDefinitions old)
            lsi gsi)
  /\ (appendSecondaryIndex definition directive ctx).2
     = match AttributeDefinitions old with Some _ => Ok tt | None => Err TypeError end.
Proof.
  intros Hattr Htable. apply tableOf_resource in Htable. simpl.
  unfold appendSecondaryIndex. run. rewrite Hattr, Htable. simpl.
  rewrite head_keySchema.
  destruct (decide (primaryPartitionKeyName definition = head (fields (dir_arguments directive))));
    simpl; destruct (AttributeDefinitions old) as [ads|]; simpl;
    unfold tableOf; simpl; rewrite ?insert_insert_eq, lookup_insert_eq; simpl;
    by rewrite ?pushMissing_filter.
Qed.

Lemma elem_of_attributeNames_filter n (S : gset string) ads :
  n ∈ attributeNames (filter (fun ad => ad_AttributeName ad ∉ S) ads)
  <-> n ∈ attributeNames ads /\ n ∉ S.
Proof.
  rewrite !elem_of_attributeNames. setoid_rewrite list_elem_of_filter.
  split.
  - intros (ad & [Hs Hin] & <-). eauto.
  - intros [(ad & Hin & <-) Hs]. eauto.
Qed.

Lemma attributeNames_app ads1 ads2 :
  attributeNames (ads1 ++ ads2) = attributeNames ads1 ∪ attributeNames ads2.
Proof. unfold attributeNames. by rewrite map_app, list_to_set_app_L. Qed.

Lemma attributeNames_derived args definition ctx attrDefs :
  attributeDefinitions args definition ctx = Ok attrDefs ->
  attributeNames attrDefs = keyNames (keySchema args).
Proof.
  intros Hattr. apply attributeDefinitions_names in Hattr as [_ Hnames].
  unfold attributeNames, keyNames. by rewrite Hnames.
Qed.

Lemma validated_derived definition directive ctx :
  validate definition directive ctx = Ok tt ->
  fields (dir_arguments directive) ≠ [] ->
  exists attrDefs,
    attributeDefinitions (dir_arguments directive) definition ctx = Ok attrDefs.
Proof.
  intros Hv Hne. apply attributeDefinitions_valid; [by apply validate_valid|done].
Qed.

(** *** Classification of a secondary index *)

Lemma keySchema_indexKeySchema args :
  fields args ≠ [] -> keySchema args = indexKeySchema (fields args).
Proof.
  unfold keySchema, indexKeySchema.
  by destruct (fields args) as [|f0 [|f1 rest]].
Qed.

Lemma append_default {T} (maybeList : option (list T)) (item : T) :
  append maybeList item = default [] maybeList ++ [item].
Proof. by destruct maybeList. Qed.

(** C2, amended: a named directive that passed validation and has a field,
    applied to a type whose table exists, appends its index as a local index
    exactly when its first field is the first field of the type's unnamed
    [@key] directive, or is [id] when the type has none, and as a global
    index otherwise. *)
Theorem secondary_index_by_primary_directive definition directive ctx :
  isPrimaryKey directive = false ->
  validate definition directive ctx = Ok tt ->
  fields (dir_arguments directive) ≠ [] ->
  classifiedBy
    (match getPrimaryKey definition with
     | Some primaryKeyDirective => head (fields (dir_arguments primaryKeyDirective))
     | None => Some "id"
     end) definition directive ctx.
Proof.
  intros Hsec Hv Hne old Hold.
  destruct (validated_derived _ _ _ Hv Hne) as [attrDefs Hattr].
  destruct (appendSecondaryIndex_run _ _ _ _ _ Hattr Hold) as [Htable _].
  unfold updateIndexStructures. rewrite Hsec.
  eexists. split; [exact Htable|].
  unfold appendedLocal, appendedGlobal, primaryPartitionKeyName.
  destruct (decide (head (fields (dir_arguments directive))
                    = match getPrimaryKey definition with
                      | Some primaryKeyDirective =>
                          head (fields (dir_arguments primaryKeyDirective))
                      | None => Some "id"
                      end)) as [Heq|Hneq]; simpl.
  - rewrite !decide_True by done.
    by rewrite append_default, keySchema_indexKeySchema.
  - rewrite !decide_False by done.
    by rewrite append_default, keySchema_indexKeySchema.
Qed.

(** C10: on a type without an unnamed [@key] directive, a named directive
    that passed validation and has a field appends its index as a local index
    if its first field is [id] and as a global index otherwise, whatever the
    key schema of the table. *)
Theorem secondary_index_default_id definition directive ctx :
  getPrimaryKey definition = None ->
  isPrimaryKey directive = false ->
  validate definition directive ctx = Ok tt ->
  fields (dir_arguments directive) ≠ [] ->
  classifiedBy (Some "id") definition directive ctx.
Proof.
  intros Hnone Hsec Hv Hne old Hold.
  destruct (validated_derived _ _ _ Hv Hne) as [attrDefs Hattr].
  destruct (appendSecondaryIndex_run _ _ _ _ _ Hattr Hold) as [Htable _].
  unfold primaryPartitionKeyName in Htable. rewrite Hnone in Htable.
  unfold updateIndexStructures. rewrite Hsec.
  eexists. split; [exact Htable|].
  unfold appendedLocal, appendedGlobal.
  destruct (decide (head (fields (dir_arguments directive)) = Some "id")) as [Heq|Hneq];
    simpl.
  - rewrite !decide_True by done.
    by rewrite append_default, keySchema_indexKeySchema.
  - rewrite !decide_False by done.
    by rewrite append_default, keySchema_indexKeySchema.
Qed.

(** *** Replacement of the primary key *)

(** C3, amended: an unnamed directive that passed validation and has a
    field, applied to a type whose table exists, leaves the table with the
    derived key schema as its key schema, its secondary indexes as they were,
    and attribute definitions for the names that were defined and are not in
    the old key schema together with the names of the derived key schema: an
    old key attribute is pruned unless the new key names it, whether or not a
    secondary index references it. *)
Theorem primary_key_replaced definition directive ctx old ads oldKeys :
  isPrimaryKey directive = true ->
  validate definition directive ctx = Ok tt ->
  fields (dir_arguments directive) ≠ [] ->
  tableOf ctx definition = Some old ->
  AttributeDefinitions old = Some ads ->
  KeySchema old = Some oldKeys ->
  exists new,
    (updateIndexStructures definition directive ctx).2 = Ok tt
    /\ tableOf (updateIndexStructures definition directive ctx).1 definition = Some new
    /\ KeySchema new = Some (keySchema (dir_arguments directive))
    /\ LocalSecondaryIndexes new = LocalSecondaryIndexes old
    /\ GlobalSecondaryIndexes new = GlobalSecondaryIndexes old
    /\ definedNames new
       = (definedNames old ∖ keyNames oldKeys) ∪ keyNames (keySchema (dir_arguments directive)).
Proof.
  intros Hprim Hv Hne Hold Hads Hkeys.
  destruct (validated_derived _ _ _ Hv Hne) as [attrDefs Hattr].
  unfold updateIndexStructures. rewrite Hprim.
  rewrite (replacePrimaryKey_run _ _ _ _ _ _ _ Hattr Hold Hads Hkeys).
  eexists. split; [done|]. split; [apply tableOf_writeResource|].
  repeat (split; [done|]).
  unfold definedNames. simpl. rewrite Hads. simpl.
  rewrite <- (attributeNames_derived _ _ _ _ Hattr).
  apply set_eq. intros n.
  rewrite attributeNames_app, !elem_of_union, !elem_of_attributeNames_filter,
    !elem_of_difference.
  destruct (decide (n ∈ attributeNames ads)), (decide (n ∈ keyNames oldKeys)); tauto.
Qed.

(** *** The invariant of the attribute definitions *)

Lemma elem_of_names n ads :
  n ∈ map ad_AttributeName ads <-> n ∈ attributeNames ads.
Proof. unfold attributeNames. by rewrite elem_of_list_to_set. Qed.

Lemma NoDup_names_filter (P : AttributeDefinition -> Prop) `{!forall x, Decision (P x)} ads :
  NoDup (map ad_AttributeName ads) -> NoDup (map ad_AttributeName (filter P ads)).
Proof.
  induction ads as [|ad ads IH]; simpl; [done|].
  rewrite NoDup_cons. intros [Hnot Hnd]. rewrite filter_cons.
  destruct (decide (P ad)); [|by apply IH]. simpl.
  apply NoDup_cons. split; [|by apply IH].
  intros Hin. apply Hnot. apply elem_of_names. apply elem_of_names in Hin.
  apply elem_of_attributeNames in Hin as (ad' & Hin & Heq).
  apply list_elem_of_filter in Hin as [_ Hin].
  apply elem_of_attributeNames. eauto.
Qed.

Lemma NoDup_names_pushed (S : gset string) ads attrDefs :
  NoDup (map ad_AttributeName ads) -> NoDup (map ad_AttributeName attrDefs) ->
  attributeNames ads ⊆ S ->
  NoDup (map ad_AttributeName
           (ads ++ filter (fun attr => ad_AttributeName attr ∉ S) attrDefs)).
Proof.
  intros Hads Hattr Hsub. rewrite map_app. apply NoDup_app.
  split; [done|]. split; [|by apply NoDup_names_filter].
  intros n Hn Hn'. apply elem_of_names in Hn.
  apply elem_of_names, elem_of_attributeNames_filter in Hn' as [_ Hn'].
  apply Hn', Hsub, Hn.
Qed.

Lemma indexNames_append indexes ix :
  indexNames (Some (append indexes ix)) = indexNames indexes ∪ keyNames (ix_KeySchema ix).
Proof.
  unfold indexNames, append. destruct indexes as [l|]; simpl.
  - rewrite map_app, union_list_app_L. simpl. by rewrite (right_id_L ∅ (∪)).
  - by rewrite (right_id_L ∅ (∪)), (left_id_L ∅ (∪)).
Qed.

(** C5, amended: a directive that passed validation, has a field and derives
    hash and range attributes of different names, applied to a table that has
    a key schema and attribute definitions satisfying the invariant, leaves a
    table that satisfies it, provided, for an unnamed directive, that every
    attribute of the old primary key that a secondary index references is an
    attribute of the new key. *)
Theorem attribute_invariant_preserved definition directive ctx old :
  validate definition directive ctx = Ok tt ->
  fields (dir_arguments directive) ≠ [] ->
  tableOf ctx definition = Some old ->
  is_Some (AttributeDefinitions old) ->
  is_Some (KeySchema old) ->
  attributeInvariant old ->
  distinctKeyNames (dir_arguments directive) ->
  (isPrimaryKey directive = true -> oldKeyCovered (dir_arguments directive) old) ->
  exists new,
    (updateIndexStructures definition directive ctx).2 = Ok tt
    /\ tableOf (updateIndexStructures definition directive ctx).1 definition = Some new
    /\ attributeInvariant new.
Proof.
  intros Hv Hne Hold [ads Hads] [oldKeys Hkeys] [Hnodup Hinv] Hdistinct Hcover.
  destruct (validated_derived _ _ _ Hv Hne) as [attrDefs Hattr].
  pose proof (attributeNames_derived _ _ _ _ Hattr) as Hnames.
  assert (NoDup (map ad_AttributeName attrDefs)) as Hnd.
  { apply attributeDefinitions_names in Hattr as [_ ->]. exact Hdistinct. }
  unfold definedNames, referencedNames in Hinv.
  rewrite Hads, Hkeys in Hinv. rewrite Hads in Hnodup. simpl in Hinv, Hnodup.
  unfold updateIndexStructures. destruct (isPrimaryKey directive) eqn:Hprim.
  - specialize (Hcover eq_refl). unfold oldKeyCovered in Hcover.
    rewrite Hkeys in Hcover. simpl in Hcover.
    rewrite (replacePrimaryKey_run _ _ _ _ _ _ _ Hattr Hold Hads Hkeys).
    eexists. split; [done|]. split; [apply tableOf_writeResource|].
    split; unfold definedNames, referencedNames; simpl.
    + rewrite map_app. apply NoDup_app.
      split; [by apply NoDup_names_filter|]. split; [|by apply NoDup_names_filter].
      intros n Hn Hn'.
      apply elem_of_names, elem_of_attributeNames_filter in Hn.
      apply elem_of_names, elem_of_attributeNames_filter in Hn' as [_ Hn'].
      apply Hn'. by apply elem_of_difference.
    + apply set_eq. intros n.
      rewrite attributeNames_app, !elem_of_union, !elem_of_attributeNames_filter,
        !elem_of_difference, Hnames.
      specialize (Hcover n). rewrite Hinv, !elem_of_union.
      rewrite elem_of_union in Hcover.
      destruct (decide (n ∈ keyNames oldKeys)),
        (decide (n ∈ keyNames (keySchema (dir_arguments directive)))),
        (decide (n ∈ indexNames (LocalSecondaryIndexes old))),
        (decide (n ∈ indexNames (GlobalSecondaryIndexes old))); tauto.
  - destruct (appendSecondaryIndex_run _ _ _ _ _ Hattr Hold) as [Htable Hres].
    rewrite Hads in Htable, Hres. simpl in Htable.
    eexists. split; [exact Hres|]. split; [exact Htable|].
    split; unfold definedNames, referencedNames; simpl.
    + by apply NoDup_names_pushed.
    + rewrite Hkeys. simpl.
      apply set_eq. intros n.
      rewrite attributeNames_app, !elem_of_union, !elem_of_attributeNames_filter, Hnames.
      destruct (decide (primaryPartitionKeyName definition
                        = head (fields (dir_arguments directive))));
        rewrite indexNames_append; simpl; rewrite Hinv, !elem_of_union;
        destruct (decide (n ∈ keyNames oldKeys)),
          (decide (n ∈ keyNames (keySchema (dir_arguments directive)))),
          (decide (n ∈ indexNames (LocalSecondaryIndexes old))),
          (decide (n ∈ indexNames (GlobalSecondaryIndexes old))); tauto.
Qed.

(** *** The arguments of the list field *)

Lemma map_imap {A B C} (g : B -> C) (f : nat -> A -> B) (l : list A) :
  map g (imap f l) = imap (fun i x => g (f i x)) l.
Proof.
  revert f. induction l as [|x l IH]; intros f; simpl; [done|].
  f_equal. apply IH.
Qed.

Lemma listKeyArgument_valid definition ctx n i k :
  validField definition ctx k ->
  listKeyArgument definition n i k = Ok (listArgument makeNamedType definition n i k).
Proof.
  intros (field & t & Hf & _). unfold listKeyArgument, listArgument, typeOfFound.
  destruct (fieldMap_findField _ _ _ Hf) as [f' ->]. simpl.
  by destruct ((i =? n - 1)%nat && negb (n =? 1)%nat).
Qed.

Lemma prependKeyArguments_valid definition ctx n indexed listArguments :
  Forall (fun ik => validField definition ctx ik.2) indexed ->
  prependKeyArguments definition n indexed listArguments
  = Ok (map (fun ik => listArgument makeNamedType definition n ik.1 ik.2) (reverse indexed)
        ++ listArguments).
Proof.
  revert listArguments. induction indexed as [|[i k] indexed IH]; intros acc Hv; [done|].
  apply Forall_cons in Hv as [Hk Hv]. simpl in Hk. simpl.
  rewrite (listKeyArgument_valid _ _ _ _ _ Hk). simpl.
  rewrite (IH _ Hv), reverse_cons, map_app. simpl. by rewrite <- app_assoc.
Qed.

(** C8, amended: an unnamed directive that passed validation, applied when
    the list resolver and the list field of the query type exist, puts in
    front of the field's arguments one argument for each key field in order:
    for each field but the last a nullable argument of the field's base type,
    and for the last field a key-condition input argument named after its base
    type if the key has two fields or more, else a nullable argument of its
    base type. *)
Theorem list_field_arguments definition directive ctx :
  isPrimaryKey directive = true ->
  validate definition directive ctx = Ok tt ->
  listFieldRewritten makeNamedType definition directive ctx.
Proof.
  intros Hprim Hv resolver query listField Hres Hquery Hfield.
  apply validate_valid in Hv.
  unfold updateListField. run. rewrite Hres, Hprim, Hquery. simpl. rewrite Hfield.
  rewrite (prependKeyArguments_valid _ ctx).
  - simpl. by rewrite reverse_involutive, map_imap.
  - apply Forall_reverse. clear -Hv.
    assert (forall (f : nat -> nat),
              Forall (fun ik : nat * string => validField definition ctx ik.2)
                     (imap (fun i k => (f i, k)) (fields (dir_arguments directive)))) as Hall.
    { induction Hv as [|k fs Hk Hfs IH]; intros f; simpl; constructor; [done|].
      apply (IH (f ∘ S)). }
    apply (Hall id).
Qed.

(** *** Failing directives *)

Lemma object_validate_err definition directive ctx e :
  validate definition directive ctx = Err e ->
  object definition directive ctx = (ctx, Err e).
Proof. intros Hv. unfold object. run. by rewrite Hv. Qed.

Lemma object_noField definition directive ctx :
  fields (dir_arguments directive) = [] ->
  exists e, object definition directive ctx = (ctx, Err e).
Proof.
  intros Hnone.
  destruct (validate definition directive ctx) as [[]|e] eqn:Hv;
    [|eexists; by apply object_validate_err].
  exists TypeError. unfold object. run. rewrite Hv. simpl.
  unfold updateIndexStructures, replacePrimaryKey, appendSecondaryIndex. run.
  unfold attributeDefinitions. rewrite Hnone.
  by destruct (isPrimaryKey directive).
Qed.

Lemma validateFields_violation definition args ctx fs f :
  f ∈ fs ->
  match fieldMap (def_fields definition) !! f with
  | None => True
  | Some field =>
      isNonNullType (fd_type field) = false
      \/ forall t, attributeTypeFromType (fd_type field) ctx = Ok t ->
                   t ≠ "S" /\ t ≠ "N" /\ t ≠ "B"
  end ->
  exists e,
    validateFields definition args ctx (fieldMap (def_fields definition)) fs = Err e.
Proof.
  intros Hin Hbad. induction fs as [|g fs IH]; [by apply elem_of_nil in Hin|].
  simpl.
  destruct (fieldMap (def_fields definition) !! g) as [field|] eqn:Hg; [|by eexists].
  destruct (attributeTypeFromType (fd_type field) ctx) as [t|] eqn:Ht; [|by eexists].
  simpl.
  destruct (isNonNullType (fd_type field)) eqn:Hnn; [|by eexists]. simpl.
  destruct (negb (String.eqb t "S") && negb (String.eqb t "N") && negb (String.eqb t "B"))
    eqn:Hscalar; [by eexists|].
  apply elem_of_cons in Hin as [->|Hin]; [|by apply IH].
  rewrite Hg in Hbad. destruct Hbad as [Hnull|Hnon]; [congruence|].
  destruct (Hnon t Ht) as (HS & HN & HB).
  apply String.eqb_neq in HS, HN, HB. by rewrite HS, HN, HB in Hscalar.
Qed.

Lemma validate_fields_err definition directive ctx e :
  validateFields definition (dir_arguments directive) ctx
    (fieldMap (def_fields definition)) (fields (dir_arguments directive)) = Err e ->
  exists e', validate definition directive ctx = Err e'.
Proof.
  intros Hf. unfold validate, rbind.
  repeat match goal with
         | |- context [if ?c then _ else _] => destruct c
         end; try (by eexists). all: rewrite Hf; by eexists.
Qed.

(** C4: a directive with a non-existent, nullable or non-scalar key field, a
    second unnamed directive beside it, a name another directive has, a
    [queryField] on an unnamed directive, or no field at all fails, and the
    context is then the one before the directive. *)
Theorem violation_leaves_context definition directive ctx :
  Violation definition directive ctx ->
  exists e, object definition directive ctx = (ctx, Err e).
Proof.
  assert (forall e', validate definition directive ctx = Err e' ->
            exists e, object definition directive ctx = (ctx, Err e)) as Hval
    by (intros e' He'; exists e'; by apply object_validate_err).
  assert (forall e',
            validateFields definition (dir_arguments directive) ctx
              (fieldMap (def_fields definition)) (fields (dir_arguments directive)) = Err e' ->
            exists e, object definition directive ctx = (ctx, Err e)) as Hfields
    by (intros e' He'; destruct (validate_fields_err _ _ _ _ He') as [e'' He'']; eauto).
  intros [other Hprim Hin Hother Hnamed|Hprim Hquery|other Hsec Hin Hother Hname
         |f Hin Hnone|f field Hin Hsome Hnull|f field Hin Hsome Hnon|Hnone];
    unfold isPrimaryKey in *.
  - eapply Hval. unfold validate. rewrite Hprim.
    rewrite (proj2 (existsb_exists _ _)); [done|].
    exists other. split; [by apply list_elem_of_In|].
    by rewrite Hother, Hnamed.
  - unfold validate in Hval. rewrite Hprim, Hquery in Hval.
    destruct (existsb _ _); by eapply Hval.
  - eapply Hval. unfold validate. rewrite Hsec.
    rewrite (proj2 (existsb_exists _ _)); [done|].
    exists other. split; [by apply list_elem_of_In|].
    rewrite Hother. simpl. by apply bool_decide_eq_true.
  - destruct (validateFields_violation definition (dir_arguments directive) ctx _ f Hin)
      as [e He]; [by rewrite Hnone|]. eauto.
  - destruct (validateFields_violation definition (dir_arguments directive) ctx _ f Hin)
      as [e He]; [rewrite Hsome; by left|]. eauto.
  - destruct (validateFields_violation definition (dir_arguments directive) ctx _ f Hin)
      as [e He]; [rewrite Hsome; by right|]. eauto.
  - by apply object_noField.
Qed.

End KeyTheorems.

(** ** The read-authorization gate *)

(** C9: the gate lets the request continue exactly when one of the four
    flags is true, and otherwise it runs the unauthorized leaf. *)
Theorem read_gate_decision (notAuthProtected staticGroup dynamicGroup owner : string)
    (flags : gmap string bool) :
  Auth.run flags
    (Auth.throwIfUnauthorizedForReadOperations notAuthProtected staticGroup dynamicGroup owner)
  = Some (if flagTrue flags notAuthProtected || flagTrue flags staticGroup
             || flagTrue flags dynamicGroup || flagTrue flags owner
          then Auth.Continue else Auth.Unauthorized).
Proof.
  unfold Auth.run, Auth.throwIfUnauthorizedForReadOperations, flagTrue. simpl.
  destruct (flags !! notAuthProtected) as [[]|], (flags !! staticGroup) as [[]|],
    (flags !! dynamicGroup) as [[]|], (flags !! owner) as [[]|]; reflexivity.
Qed.

(** ** The theorems at the sample schemas *)

Section Samples.
Import Examples.
#[local] Existing Instance sampleExternal.

Lemma composite_key_condensed_witness :
  fields (dir_arguments compositeKey) = ["email"; "kind"; "date"]
  /\ keySchema (dir_arguments compositeKey)
     = [ {| ks_AttributeName := Some "email"; ks_KeyType := HASH |};
         {| ks_AttributeName := Some "kind#date"; ks_KeyType := RANGE |} ]
  /\ exists ads,
       attributeDefinitions (dir_arguments compositeKey) compositeType modelContext = Ok ads
       /\ length ads = 2
       /\ ads !! 1 = Some {| ad_AttributeName := "kind#date"; ad_AttributeType := "S" |}.
Proof.
  destruct (composite_key_condensed compositeType compositeKey modelContext
              "email" "kind" "date" [] eq_refl) as (Hks & Hads & Hex).
  split; [reflexivity|]. split; [exact Hks|].
  destruct (Hex eq_refl) as [ads Hattr]. exists ads.
  destruct (Hads ads Hattr) as (Hlen & Hsecond & _). repeat split; assumption.
Defined.

Lemma secondary_index_by_primary_directive_witness :
  isPrimaryKey byEmail = false
  /\ validate secondaryFirstType byEmail modelContext = Ok tt
  /\ tableHashName modelTable = Some "id"
  /\ exists new,
       tableOf (updateIndexStructures secondaryFirstType byEmail modelContext).1
               secondaryFirstType = Some new
       /\ appendedLocal (dir_arguments byEmail) modelTable new.
Proof.
  repeat (split; [reflexivity|]).
  assert (validate secondaryFirstType byEmail modelContext = Ok tt) as Hv by reflexivity.
  pose proof (secondary_index_by_primary_directive secondaryFirstType byEmail modelContext
                eq_refl Hv ltac:(discriminate)) as Hc.
  destruct (Hc modelTable eq_refl) as (new & Hnew & Hcls).
  exists new. split; [exact Hnew|].
  rewrite decide_True in Hcls by reflexivity. exact Hcls.
Defined.

Lemma secondary_index_default_id_witness :
  getPrimaryKey secondaryOnlyType = None
  /\ isPrimaryKey testsByEmail = false
  /\ validate secondaryOnlyType testsByEmail modelContext = Ok tt
  /\ exists new,
       tableOf (updateIndexStructures secondaryOnlyType testsByEmail modelContext).1
               secondaryOnlyType = Some new
       /\ appendedGlobal (dir_arguments testsByEmail) modelTable new.
Proof.
  repeat (split; [reflexivity|]).
  assert (validate secondaryOnlyType testsByEmail modelContext = Ok tt) as Hv by reflexivity.
  pose proof (secondary_index_default_id secondaryOnlyType testsByEmail modelContext
                eq_refl eq_refl Hv ltac:(discriminate)) as Hc.
  destruct (Hc modelTable eq_refl) as (new & Hnew & Hcls).
  exists new. split; [exact Hnew|].
  rewrite decide_False in Hcls by discriminate. exact Hcls.
Defined.

Lemma primary_key_replaced_witness :
  isPrimaryKey compositeKey = true
  /\ validate compositeType compositeKey modelContext = Ok tt
  /\ tableOf modelContext compositeType = Some modelTable
  /\ exists new,
       tableOf (updateIndexStructures compositeType compositeKey modelContext).1
               compositeType = Some new
       /\ KeySchema new = Some (keySchema (dir_arguments compositeKey))
       /\ definedNames new
          = (definedNames modelTable ∖ keyNames idKey)
            ∪ keyNames (keySchema (dir_arguments compositeKey)).
Proof.
  repeat (split; [reflexivity|]).
  assert (validate compositeType compositeKey modelContext = Ok tt) as Hv by reflexivity.
  assert (tableOf modelContext compositeType = Some modelTable) as Hold by reflexivity.
  destruct (primary_key_replaced compositeType compositeKey modelContext modelTable
              idAttribute idKey eq_refl Hv ltac:(discriminate) Hold eq_refl eq_refl)
    as (new & _ & Hnew & Hks & _ & _ & Hnames).
  exists new. repeat split; assumption.
Defined.

Lemma modelTable_invariant : attributeInvariant modelTable.
Proof.
  split.
  - simpl. apply NoDup_singleton.
  - reflexivity.
Defined.

Lemma attribute_invariant_preserved_witness :
  validate compositeType compositeKey modelContext = Ok tt
  /\ tableOf modelContext compositeType = Some modelTable
  /\ attributeInvariant modelTable
  /\ exists new,
       tableOf (updateIndexStructures compositeType compositeKey modelContext).1
               compositeType = Some new
       /\ attributeInvariant new.
Proof.
  repeat (split; [reflexivity|]). split; [exact modelTable_invariant|].
  assert (distinctKeyNames (dir_arguments compositeKey)) as Hdistinct.
  { unfold distinctKeyNames. simpl. apply NoDup_cons. split; [|apply NoDup_singleton].
    intros Hin. apply list_elem_of_singleton in Hin. discriminate Hin. }
  assert (oldKeyCovered (dir_arguments compositeKey) modelTable) as Hcover.
  { intros n _ Hn. unfold indexNames in Hn. simpl in Hn.
    apply elem_of_union in Hn as [Hn|Hn]; by apply elem_of_empty in Hn. }
  assert (validate compositeType compositeKey modelContext = Ok tt) as Hv by reflexivity.
  assert (tableOf modelContext compositeType = Some modelTable) as Hold by reflexivity.
  destruct (attribute_invariant_preserved compositeType compositeKey modelContext modelTable
              Hv ltac:(discriminate) Hold (mk_is_Some _ _ eq_refl)
              (mk_is_Some _ _ eq_refl) modelTable_invariant Hdistinct (fun _ => Hcover))
    as (new & _ & Hnew & Hinv).
  exists new. split; assumption.
Defined.

Lemma violation_leaves_context_witness :
  Violation nullableType emailKey modelContext
  /\ exists e, object nullableType emailKey modelContext = (modelContext, Err e).
Proof.
  assert (Violation nullableType emailKey modelContext) as Hviolation.
  { apply (nullableField _ _ _ "email" (field "email" (NamedType "String"))).
    - apply list_elem_of_here.
    - reflexivity.
    - reflexivity. }
  split; [exact Hviolation|].
  exact (violation_leaves_context nullableType emailKey modelContext Hviolation).
Defined.

Lemma list_field_arguments_witness :
  isPrimaryKey compositeKey = true
  /\ validate compositeType compositeKey modelContext = Ok tt
  /\ updateListField compositeType compositeKey modelContext
     = putType (ObjectTypeDefinition
                  (withFields queryType
                     (replaceField (def_fields queryType)
                        (withArguments listTests
                           ([ argument "email" (NamedType "String");
                              argument "kind" (NamedType "Int");
                              argument "date" (NamedType "ModelAWSDateTimeKeyConditionInput") ]
                            ++ fd_arguments listTests))))) modelContext.
Proof.
  repeat (split; [reflexivity|]).
  assert (validate compositeType compositeKey modelContext = Ok tt) as Hv by reflexivity.
  exact (list_field_arguments compositeType compositeKey modelContext eq_refl Hv
           (resolver "listTests") queryType listTests eq_refl eq_refl eq_refl).
Defined.

(** Where the code departs from the specification's wording. *)

(** C2 as worded fails: with the named directive before the unnamed one the
    table still has the model's key [id] when the named directive is
    applied, and the index on [email] is appended as a local index: the
    table is left with that one local index and no global one. *)
Lemma secondary_index_not_by_table_key :
  (exists new,
     tableOf (updateIndexStructures secondaryFirstType byEmail modelContext).1
             secondaryFirstType = Some new
     /\ tableHashName modelTable = Some "id"
     /\ LocalSecondaryIndexes new
        = Some [ {| IndexName := Some "byEmail";
                    ix_KeySchema :=
                      [ {| ks_AttributeName := Some "email"; ks_KeyType := HASH |} ];
                    ProjectionType := "ALL";
                    ProvisionedThroughput := None |} ]
     /\ GlobalSecondaryIndexes new = None)
  /\ ~ classifiedByTableKey secondaryFirstType byEmail modelContext.
Proof.
  split.
  - eexists. split; [vm_compute; reflexivity|]. by repeat split.
  - intros Hc.
    destruct (Hc modelTable eq_refl modelTable eq_refl) as (new & Hnew & Hcls).
    vm_compute in Hnew. injection Hnew as <-.
    rewrite decide_False in Hcls by discriminate.
    destruct Hcls as [Hglobal _]. discriminate Hglobal.
Qed.

Lemma byOwnerContext_table :
  exists old,
    tableOf byOwnerContext indexedIdType = Some old
    /\ KeySchema old = Some idKey
    /\ definedNames old = {[ "id"; "owner" ]}
    /\ referencedNames old = {[ "id"; "owner" ]}
    /\ NoDup (map ad_AttributeName (default [] (AttributeDefinitions old))).
Proof.
  eexists. split; [vm_compute; reflexivity|]. split; [reflexivity|].
  split; [reflexivity|]. split; [reflexivity|].
  simpl. apply NoDup_cons. split; [|apply NoDup_singleton].
  intros Hin. apply list_elem_of_singleton in Hin. discriminate Hin.
Qed.

Lemma replaced_table :
  exists new,
    tableOf (updateIndexStructures indexedIdType emailKey byOwnerContext).1 indexedIdType
    = Some new
    /\ definedNames new = {[ "owner"; "email" ]}
    /\ referencedNames new = {[ "email"; "owner"; "id" ]}.
Proof.
  eexists. split; [vm_compute; reflexivity|]. split; reflexivity.
Qed.

(** C3 as worded fails: the unnamed directive prunes the definition of [id],
    the old key attribute, while the index [byOwner] has [id] as its range
    attribute. *)
Lemma old_key_pruned_while_referenced :
  ~ replacedAsSpecified indexedIdType emailKey byOwnerContext.
Proof.
  intros Hc.
  destruct byOwnerContext_table as (old & Hold & Hkeys & Hdef & _).
  destruct replaced_table as (new & Hnew & Hdef' & Href').
  destruct (Hc old Hold) as (new' & Hnew' & _ & Hpruned).
  rewrite Hnew in Hnew'. injection Hnew' as <-.
  specialize (Hpruned "id").
  rewrite Hkeys, Hdef, Hdef', Href' in Hpruned. simpl in Hpruned.
  apply Hpruned.
  - apply elem_of_keyNames. eexists. split; [apply list_elem_of_here|reflexivity].
  - apply elem_of_union. left. by apply elem_of_singleton.
  - intros Hin. apply elem_of_union in Hin as [Hin|Hin];
      apply elem_of_singleton in Hin; discriminate Hin.
  - apply elem_of_union. right. by apply elem_of_singleton.
Qed.

(** C5 as worded fails: the table satisfies the invariant before the unnamed
    directive and not after it, [id] being referenced by the index [byOwner]
    and no longer defined. *)
Lemma invariant_lost_by_pruning :
  ~ invariantPreserved indexedIdType emailKey byOwnerContext.
Proof.
  intros Hc.
  destruct byOwnerContext_table as (old & Hold & _ & Hdef & Href & Hnodup).
  destruct replaced_table as (new & Hnew & Hdef' & Href').
  destruct (Hc old Hold) as (new' & Hnew' & _ & Hinv).
  { split; [exact Hnodup|]. by rewrite Hdef, Href. }
  rewrite Hnew in Hnew'. injection Hnew' as <-.
  rewrite Hdef', Href' in Hinv.
  assert ("id" ∈ ({[ "owner"; "email" ]} : gset string)) as Hin.
  { rewrite Hinv. apply elem_of_union. right. by apply elem_of_singleton. }
  apply elem_of_union in Hin as [Hin|Hin];
    apply elem_of_singleton in Hin; discriminate Hin.
Qed.

(** C8 as worded fails: the arguments for [email] and [kind] are nullable. *)
Lemma list_field_arguments_not_required :
  ~ listFieldAsSpecified compositeType compositeKey modelContext.
Proof.
  intros Hc.
  specialize (Hc (resolver "listTests") queryType listTests eq_refl eq_refl eq_refl).
  apply (f_equal (fun r => nodeMap r.1 !! "Query")) in Hc.
  vm_compute in Hc. discriminate Hc.
Qed.

End Samples.

(** * Further properties of the code *)

(** ** The reference walk *)

Section WalkMore.
Import WalkSpec.






(** X3: the merge throws exactly when the right map has a key that is a name
    of [Object.prototype] and that the left map does not own, and what it
    throws is a [TypeError]; otherwise the list of the result at a key is the
    list of the left map followed by the list of the right map, and the keys
    of the result are the keys of either map. *)
Theorem mergeReferenceMaps_result (a b : ReferenceMap) :
  match mergeReferenceMaps a b with
  | Ok m =>
      (forall k, m !!! k = a !!! k ++ b !!! k)
      /\ dom m = dom a ∪ dom b
      /\ (forall k, k ∈ dom b -> k ∉ dom a -> inherited k = false)
  | Err e =>
      e = TypeError
      /\ exists k, k ∈ dom b /\ (k ∉ dom a) /\ inherited k = true
  end.
Proof.
  destruct (mergeReferenceMaps_either a b) as [[Hc ->]|[Hc ->]].
  - split; [done|]. destruct Hc as (k & v & Hk & Hnone & Hinh).
    exists k. split; [by apply elem_of_dom|]. split; [|done].
    by apply not_elem_of_dom.
  - split; [apply mergedMap_lookup_total|]. split.
    + apply set_eq. intros k.
      rewrite elem_of_union, !elem_of_dom, mergedMap_lookup.
      destruct (a !! k), (b !! k); simpl; split; intros Hk;
        try (by eauto); try (by destruct Hk as [[? ?]|[? ?]]); by destruct Hk.
    + intros k [v Hk]%elem_of_dom Hnone%not_elem_of_dom.
      destruct (inherited k) eqn:Hinh; [|done].
      exfalso. apply Hc. by exists k, v.
Qed.

(** X24: on maps with no name of [Object.prototype] among their keys the
    merge is a monoid: merging the empty map on either side returns the
    other map, and merging three maps returns the same map either way, whose
    list at a key is the three lists in order; for the merge with the empty
    map on the right and for the left map of the three the keys may be any
    names. *)
Theorem mergeReferenceMaps_plain_monoid (a b c : ReferenceMap) :
  plain b -> plain c ->
  mergeReferenceMaps ∅ b = Ok b
  /\ mergeReferenceMaps a ∅ = Ok a
  /\ exists abc,
       rbind (mergeReferenceMaps a b) (fun ab => mergeReferenceMaps ab c) = Ok abc
       /\ rbind (mergeReferenceMaps b c) (mergeReferenceMaps a) = Ok abc
       /\ forall k, abc !!! k = a !!! k ++ b !!! k ++ c !!! k.
Proof.
  intros Hb Hc. split; [|split].
  - rewrite mergeReferenceMaps_plain by done. f_equal.
    apply map_eq; intros k. by rewrite mergedMap_lookup, lookup_empty.
  - rewrite mergeReferenceMaps_plain by apply plain_empty. f_equal.
    apply map_eq; intros k. rewrite mergedMap_lookup, lookup_empty.
    by destruct (a !! k).
  - exists (mergedMap (mergedMap a b) c).
    rewrite (mergeReferenceMaps_plain a b), (mergeReferenceMaps_plain b c) by done.
    simpl. rewrite (mergeReferenceMaps_plain _ c) by done.
    rewrite (mergeReferenceMaps_plain a) by by apply mergedMap_plain.
    split; [done|]. split.
    + f_equal. apply map_eq; intros k. rewrite !mergedMap_lookup.
      destruct (a !! k), (b !! k), (c !! k); simpl; by rewrite ?app_assoc.
    + intros k. by rewrite !mergedMap_lookup_total, app_assoc.
Qed.

End WalkMore.

(** ** Validation and the derived keys *)

Lemma existsb_find_none_elem {A} (p : A -> bool) (l : list A) x :
  existsb p l = false -> x ∈ l -> p x = false.
Proof.
  intros Hex Hin. destruct (p x) eqn:Hp; [|done].
  rewrite <- Hex. symmetry. apply existsb_exists.
  exists x. split; [by apply list_elem_of_In|done].
Qed.

Lemma existsb_none_elem {A} (p : A -> bool) (l : list A) :
  (forall x, x ∈ l -> p x = false) -> existsb p l = false.
Proof.
  intros Hall. induction l as [|x l IH]; [done|]. simpl.
  rewrite Hall by left. apply IH. intros y Hy. apply Hall. by right.
Qed.

Section KeyMore.
Context `{External}.

Lemma validateFields_accepts definition args ctx fs :
  Forall (validField definition ctx) fs ->
  validateFields definition args ctx (fieldMap (def_fields definition)) fs = Ok tt.
Proof.
  induction 1 as [|f fs (field & t & Hf & Ht & Hnn & Hscalar) _ IH]; [done|].
  simpl. rewrite Hf, Ht. simpl. rewrite Hnn. simpl.
  by destruct Hscalar as [->|[->| ->]].
Qed.

(** X4: [validate] accepts a directive exactly when the naming rules hold
    for it and every key field is a field of the type that is non-null and
    has attribute type S, N or B; an empty field list is accepted. *)
Theorem validate_accepts_exactly definition directive ctx :
  validate definition directive ctx = Ok tt
  <-> uniquelyNamed definition directive
      /\ Forall (validField definition ctx) (fields (dir_arguments directive)).
Proof.
  split.
  - intros Hv. split; [|by apply validate_valid].
    unfold validate, rbind in Hv. unfold uniquelyNamed, isPrimaryKey.
    destruct (negb (truthy_string (name (dir_arguments directive)))).
    + destruct (existsb _ _) eqn:Hex; [discriminate|].
      destruct (truthy_string (queryField (dir_arguments directive))); [discriminate|].
      split; [|done]. intros other Hin Hother.
      apply (existsb_find_none_elem _ _ _ Hex) in Hin.
      rewrite Hother in Hin. simpl in Hin. by destruct (negb _).
    + destruct (existsb _ _) eqn:Hex; [discriminate|].
      intros other Hin Hother Hname.
      apply (existsb_find_none_elem _ _ _ Hex) in Hin.
      rewrite Hother in Hin. simpl in Hin.
      by apply bool_decide_eq_false in Hin.
  - intros [Hnamed Hfields]. unfold validate, rbind.
    unfold uniquelyNamed, isPrimaryKey in Hnamed.
    destruct (negb (truthy_string (name (dir_arguments directive)))).
    + destruct Hnamed as [Hothers ->].
      rewrite existsb_none_elem; [by apply validateFields_accepts|].
      intros other Hin.
      destruct (isOther other directive) eqn:Hother; [|done]. simpl.
      by apply Hothers.
    + rewrite existsb_none_elem; [by apply validateFields_accepts|].
      intros other Hin.
      destruct (isOther other directive) eqn:Hother; [|done]. simpl.
      apply bool_decide_eq_false. by apply Hnamed.
Qed.

(** X5: an unnamed [@key] directive of a type that passed validation is the
    directive [getPrimaryKey] finds on the type, so a named directive of the
    type is classified against the fields of that very directive. *)
Theorem validated_primary_is_found definition directive ctx :
  directive ∈ def_directives definition ->
  dir_name directive = "key" ->
  isPrimaryKey directive = true ->
  validate definition directive ctx = Ok tt ->
  exists found,
    getPrimaryKey definition = Some found /\ dir_ref found = dir_ref directive.
Proof.
  intros Hin Hkey Hprim Hv.
  apply validate_accepts_exactly in Hv as [Hnamed _].
  unfold uniquelyNamed in Hnamed. rewrite Hprim in Hnamed. destruct Hnamed as [Hothers _].
  unfold getPrimaryKey.
  destruct (List.find _ (def_directives definition)) as [found|] eqn:Hfind.
  - exists found. split; [done|].
    apply find_some in Hfind as [Hfound Hpred].
    apply andb_prop in Hpred as [Hname Hunnamed].
    apply String.eqb_eq in Hname.
    destruct (isOther found directive) eqn:Hother.
    + assert (found ∈ keyDirectives definition) as Hk.
      { apply list_elem_of_filter. split; [done|by apply list_elem_of_In]. }
      specialize (Hothers found Hk Hother). unfold isPrimaryKey in Hothers. congruence.
    + unfold isOther in Hother. apply negb_false_iff, Nat.eqb_eq in Hother. done.
  - apply list_elem_of_In in Hin. apply (find_none _ _ Hfind) in Hin.
    unfold isPrimaryKey in Hprim. rewrite Hkey, Hprim in Hin. discriminate Hin.
Qed.

(** X6: a validated directive with a field, on a type that has no table
    resource, fails with the error that [@key] needs [@model], and the
    context stays as it was. *)
Theorem key_without_model definition directive ctx :
  validate definition directive ctx = Ok tt ->
  fields (dir_arguments directive) ≠ [] ->
  tableOf ctx definition = None ->
  object definition directive ctx
  = (ctx, Err (InvalidDirectiveError
       "The @key directive may only be added to object definitions annotated with @model.")).
Proof.
  intros Hv Hne Hnone.
  destruct (validated_derived _ _ _ Hv Hne) as [attrDefs Hattr].
  unfold tableOf in Hnone.
  destruct (resources ctx !! ModelTableResourceID (def_name definition)) as [r|] eqn:Hr;
    [discriminate|].
  unfold object. run. rewrite Hv. simpl.
  unfold updateIndexStructures, replacePrimaryKey, appendSecondaryIndex. run.
  destruct (isPrimaryKey directive); rewrite Hattr; simpl; by rewrite Hr.
Qed.

(** X7: for a validated directive with one field the derived key schema is
    that field as HASH and the derived attribute definitions are one entry
    for it, typed by the attribute type of the field of that name. *)
Theorem single_field_key definition directive ctx f0 :
  fields (dir_arguments directive) = [f0] ->
  validate definition directive ctx = Ok tt ->
  keySchema (dir_arguments directive)
  = [ {| ks_AttributeName := Some f0; ks_KeyType := HASH |} ]
  /\ exists t0,
       fieldTyped definition ctx f0 t0
       /\ attributeDefinitions (dir_arguments directive) definition ctx
          = Ok [ {| ad_AttributeName := f0; ad_AttributeType := t0 |} ].
Proof.
  intros Hfields Hv. apply validate_valid in Hv. rewrite Hfields in Hv.
  apply Forall_cons in Hv as [(field & t & Hf & Ht & _) _].
  split; [unfold keySchema; by rewrite Hfields|].
  exists t. split; [by exists field|].
  unfold attributeDefinitions, typeOfField, rbind. by rewrite Hfields, Hf, Ht.
Qed.

(** X8: for a validated directive with two fields the derived key schema is
    the first field as HASH and the second as RANGE under its own name, and
    the derived attribute definitions are one entry for each, typed by the
    attribute type of the field of that name. *)
Theorem two_field_key definition directive ctx f0 f1 :
  fields (dir_arguments directive) = [f0; f1] ->
  validate definition directive ctx = Ok tt ->
  keySchema (dir_arguments directive)
  = [ {| ks_AttributeName := Some f0; ks_KeyType := HASH |};
      {| ks_AttributeName := Some f1; ks_KeyType := RANGE |} ]
  /\ exists t0 t1,
       fieldTyped definition ctx f0 t0
       /\ fieldTyped definition ctx f1 t1
       /\ attributeDefinitions (dir_arguments directive) definition ctx
          = Ok [ {| ad_AttributeName := f0; ad_AttributeType := t0 |};
                 {| ad_AttributeName := f1; ad_AttributeType := t1 |} ].
Proof.
  intros Hfields Hv. apply validate_valid in Hv. rewrite Hfields in Hv.
  apply Forall_cons in Hv as [(field0 & t0 & Hf0 & Ht0 & _) Hv].
  apply Forall_cons in Hv as [(field1 & t1 & Hf1 & Ht1 & _) _].
  split; [unfold keySchema; by rewrite Hfields|].
  exists t0, t1. split; [by exists field0|]. split; [by exists field1|].
  unfold attributeDefinitions, typeOfField, rbind.
  by rewrite Hfields, Hf0, Ht0, Hf1, Ht1.
Qed.

(** X12: a named directive only adds to the table: the primary key schema
    is as before, the old local and global indexes stay in front in their
    lists, which together hold one index more, and the old attribute
    definitions stay in front of the new ones. *)
Theorem secondary_index_only_adds definition directive ctx old :
  isPrimaryKey directive = false ->
  validate definition directive ctx = Ok tt ->
  fields (dir_arguments directive) ≠ [] ->
  tableOf ctx definition = Some old ->
  exists new,
    tableOf (updateIndexStructures definition directive ctx).1 definition = Some new
    /\ KeySchema new = KeySchema old
    /\ default [] (LocalSecondaryIndexes old) `prefix_of` default [] (LocalSecondaryIndexes new)
    /\ default [] (GlobalSecondaryIndexes old) `prefix_of` default [] (GlobalSecondaryIndexes new)
    /\ length (default [] (LocalSecondaryIndexes new))
       + length (default [] (GlobalSecondaryIndexes new))
       = S (length (default [] (LocalSecondaryIndexes old))
            + length (default [] (GlobalSecondaryIndexes old)))
    /\ forall ads, AttributeDefinitions old = Some ads ->
         exists added, AttributeDefinitions new = Some (ads ++ added).
Proof.
  intros Hsec Hv Hne Hold.
  destruct (validated_derived _ _ _ Hv Hne) as [attrDefs Hattr].
  destruct (appendSecondaryIndex_run _ _ _ _ _ Hattr Hold) as [Htable _].
  unfold updateIndexStructures. rewrite Hsec.
  eexists. split; [exact Htable|]. simpl. split; [done|].
  unfold append.
  destruct (decide (primaryPartitionKeyName definition = head (fields (dir_arguments directive))));
    destruct (LocalSecondaryIndexes old) as [lsi|],
             (GlobalSecondaryIndexes old) as [gsi|]; simpl;
    (split; [first [by apply prefix_app_r | by apply prefix_nil | done]|]);
    (split; [first [by apply prefix_app_r | by apply prefix_nil | done]|]);
    (split; [rewrite ?length_app; simpl; lia|]);
    intros ads ->; simpl; by eexists.
Qed.

(** X13: after the unnamed directive that [getPrimaryKey] finds on a type
    was applied, the HASH attribute of the table's key schema is the name
    against which the named directives of the type are classified. *)
Theorem replaced_hash_is_partition_key definition directive ctx old :
  getPrimaryKey definition = Some directive ->
  validate definition directive ctx = Ok tt ->
  fields (dir_arguments directive) ≠ [] ->
  tableOf ctx definition = Some old ->
  is_Some (AttributeDefinitions old) ->
  is_Some (KeySchema old) ->
  exists new,
    tableOf (updateIndexStructures definition directive ctx).1 definition = Some new
    /\ tableHashName new = primaryPartitionKeyName definition.
Proof.
  intros Hfound Hv Hne Hold [ads Hads] [oldKeys Hkeys].
  destruct (validated_derived _ _ _ Hv Hne) as [attrDefs Hattr].
  assert (isPrimaryKey directive = true) as Hprim.
  { unfold getPrimaryKey in Hfound. apply find_some in Hfound as [_ Hpred].
    by apply andb_prop in Hpred as [_ Hunnamed]. }
  unfold updateIndexStructures. rewrite Hprim.
  rewrite (replacePrimaryKey_run _ _ _ _ _ _ _ Hattr Hold Hads Hkeys).
  eexists. split; [apply tableOf_writeResource|].
  unfold primaryPartitionKeyName. rewrite Hfound.
  unfold tableHashName, keySchema. simpl.
  by destruct (1 <? length (fields (dir_arguments directive)))%nat.
Qed.

(** ** The query fields *)

Lemma mapR_required definition ctx fs :
  Forall (validField definition ctx) fs ->
  mapR (fun keyAttributeName =>
          rbind (typeOfFound definition keyAttributeName) (fun keyType =>
          Ok (makeInputValueDefinition keyAttributeName
                (makeNonNullType (makeNamedType (getBaseType keyType)))))) fs
  = Ok (map (requiredKeyArgument definition) fs).
Proof.
  induction 1 as [|k fs (field & t & Hf & _) _ IH]; [done|].
  simpl. rewrite IH. unfold typeOfFound, requiredKeyArgument.
  by destruct (fieldMap_findField _ _ _ Hf) as [f' ->].
Qed.

(** X14: an unnamed directive that passed validation, applied when the get
    resolver and the get field of the query type exist, replaces the
    arguments of the get field by one required argument for each key field,
    in the order of the key fields and typed by the field's base type; the
    arguments the field had are dropped. *)
Theorem get_field_arguments_replaced definition directive ctx resolver query getField :
  isPrimaryKey directive = true ->
  validate definition directive ctx = Ok tt ->
  resources ctx !! DynamoDBGetResolverResourceID (def_name definition) = Some resolver ->
  nodeMap ctx !! queryTypeName ctx = Some (ObjectTypeDefinition query) ->
  findResolverField (def_fields query) resolver = Some getField ->
  updateGetField definition directive ctx
  = putType (ObjectTypeDefinition
               (withFields query
                  (replaceField (def_fields query)
                     (withArguments getField
                        (map (requiredKeyArgument definition)
                             (fields (dir_arguments directive))))))) ctx.
Proof.
  intros Hprim Hv Hres Hquery Hfield. apply validate_valid in Hv.
  unfold updateGetField. run. rewrite Hquery, Hres, Hprim. simpl.
  rewrite (mapR_required _ ctx) by done. simpl. by rewrite Hfield.
Qed.

Lemma mapR_indexed definition ctx n fs :
  Forall (validField definition ctx) fs ->
  forall shift : nat -> nat,
  mapR (fun '(i, keyAttributeName) =>
          rbind (typeOfFound definition keyAttributeName) (fun keyType =>
          Ok (if (i =? n - 1)%nat && negb (n =? 1)%nat
              then makeInputValueDefinition keyAttributeName
                     (makeNamedType (ModelKeyConditionInputTypeName (getBaseType keyType)))
              else makeInputValueDefinition keyAttributeName
                     (makeNonNullType (makeNamedType (getBaseType keyType))))))
       (imap (fun i k => (shift i, k)) fs)
  = Ok (imap (fun i k =>
                listArgument (fun base => makeNonNullType (makeNamedType base))
                             definition n (shift i) k) fs).
Proof.
  induction 1 as [|k fs (field & t & Hf & _) _ IH]; intros shift; [done|].
  specialize (IH (shift ∘ S)). simpl.
  replace (imap ((fun (i : nat) (k0 : string) => (shift i, k0)) ∘ S) fs)
    with (imap (fun (i : nat) (k0 : string) => ((shift ∘ S) i, k0)) fs) by reflexivity.
  rewrite IH. unfold typeOfFound, listArgument.
  destruct (fieldMap_findField _ _ _ Hf) as [f' ->]. simpl.
  by destruct ((shift 0 =? n - 1)%nat && negb (n =? 1)%nat).
Qed.

(** X15: a named directive with a [queryField] that passed validation adds
    one field of that name to the end of the query type's fields, the others
    staying as they are; its arguments are one for each key field in order, a
    required argument of the field's base type for each but the last, and
    for the last a key-condition input argument if the key has two fields or
    more, else a required argument too. *)
Theorem query_field_appended definition directive ctx query :
  isPrimaryKey directive = false ->
  truthy_string (queryField (dir_arguments directive)) = true ->
  validate definition directive ctx = Ok tt ->
  nodeMap ctx !! queryTypeName ctx = Some (ObjectTypeDefinition query) ->
  ensureQueryField definition directive ctx
  = putType (ObjectTypeDefinition
               (withFields query
                  (def_fields query
                   ++ [makeConnectionField (show (queryField (dir_arguments directive)))
                         (def_name definition)
                         (listArguments (fun base => makeNonNullType (makeNamedType base))
                            definition (fields (dir_arguments directive)))]))) ctx.
Proof.
  intros Hsec Hquery Hv Hnode. apply validate_valid in Hv.
  unfold ensureQueryField. rewrite Hquery, Hsec. run. rewrite Hnode.
  rewrite (mapR_indexed _ ctx _ _ Hv id). done.
Qed.

(** ** The input objects *)

(** X16: the rewrite of the update input keeps the fields and their order,
    makes a field required exactly when it is a key field, and changes
    nothing when it is done again. *)
Theorem replaceUpdateInput_shape definition input keyFields :
  let updated := replaceUpdateInput definition input keyFields in
  map iv_name (in_fields updated) = map iv_name (in_fields input)
  /\ Forall (fun f => isNonNullType (iv_type f) = isKeyField keyFields (iv_name f))
            (in_fields updated)
  /\ replaceUpdateInput definition updated keyFields = updated.
Proof.
  unfold replaceUpdateInput, withInputFields. simpl.
  split; [|split].
  - rewrite map_map. apply map_ext. intros f.
    by destruct (isKeyField keyFields (iv_name f)).
  - apply Forall_forall. intros f Hin. apply list_elem_of_In in Hin.
    apply in_map_iff in Hin.
    destruct Hin as (g & <- & _).
    by destruct (isKeyField keyFields (iv_name g)) eqn:Hkey; simpl; rewrite Hkey.
  - f_equal. rewrite map_map. apply map_ext. intros f.
    by destruct (isKeyField keyFields (iv_name f)) eqn:Hkey; simpl; rewrite Hkey.
Qed.

Lemma replaceCreateInput_fields definition input keyFields :
  in_fields (replaceCreateInput definition input keyFields)
  = flat_map (createInputField definition keyFields) (in_fields input).
Proof.
  unfold replaceCreateInput, withInputFields. simpl.
  set (step := fun (acc : list InputValueDefinitionNode) (f : InputValueDefinitionNode) => _).
  assert (forall fs acc,
            foldl step acc fs
            = acc ++ flat_map (createInputField definition keyFields) fs) as Hloop.
  { induction fs as [|f fs IH]; intros acc; simpl; [by rewrite app_nil_r|].
    rewrite IH. unfold step, createInputField.
    destruct (isKeyField keyFields (iv_name f)); simpl; [by rewrite <- app_assoc|].
    destruct (findField (def_fields definition) (iv_name f)) as [existingField|]; simpl.
    - destruct (isNonNullType (fd_type existingField)); simpl; by rewrite <- app_assoc.
    - done. }
  by rewrite Hloop.
Qed.

Lemma createInputField_again definition keyFields f g :
  g ∈ createInputField definition keyFields f ->
  createInputField definition keyFields g = [g].
Proof.
  unfold createInputField.
  destruct (isKeyField keyFields (iv_name f)
            || default false (isNonNullType ∘ fd_type
                              <$> findField (def_fields definition) (iv_name f))) eqn:Hreq.
  - intros ->%list_elem_of_singleton. simpl. by rewrite Hreq.
  - destruct (bool_decide (is_Some (findField (def_fields definition) (iv_name f))))
      eqn:Hsome; [|by intros ?%elem_of_nil].
    intros ->%list_elem_of_singleton. simpl. by rewrite Hreq, Hsome.
Qed.

(** X17: the rewrite of the create input keeps, in their order, the fields
    that are key fields or fields of the type and drops the others; a field
    that is kept is required exactly when it is a key field or a non-null
    field of the type; and the rewrite changes nothing when it is done
    again. *)
Theorem replaceCreateInput_shape definition input keyFields :
  let created := replaceCreateInput definition input keyFields in
  map iv_name (in_fields created)
  = filter (fun n => isKeyField keyFields n = true
                     \/ is_Some (findField (def_fields definition) n))
           (map iv_name (in_fields input))
  /\ Forall (fun f =>
               isNonNullType (iv_type f)
               = isKeyField keyFields (iv_name f)
                 || default false (isNonNullType ∘ fd_type
                                   <$> findField (def_fields definition) (iv_name f)))
            (in_fields created)
  /\ replaceCreateInput definition created keyFields = created.
Proof.
  cbv zeta. split; [|split].
  - rewrite replaceCreateInput_fields.
    induction (in_fields input) as [|f fs IH]; [done|].
    cbn [flat_map map]. rewrite map_app, IH, filter_cons. unfold createInputField.
    destruct (decide (isKeyField keyFields (iv_name f) = true
                      \/ is_Some (findField (def_fields definition) (iv_name f))))
      as [Hkeep|Hdrop].
    + destruct (isKeyField keyFields (iv_name f)) eqn:Hkey; [done|].
      destruct Hkeep as [?|[existingField Hfound]]; [done|]. rewrite Hfound. simpl.
      by destruct (isNonNullType (fd_type existingField)).
    + destruct (isKeyField keyFields (iv_name f)) eqn:Hkey; [destruct Hdrop; by left|].
      destruct (findField (def_fields definition) (iv_name f)) eqn:Hfound;
        [destruct Hdrop; right; by eexists|]. done.
  - rewrite replaceCreateInput_fields. apply Forall_forall. intros g Hin.
    apply list_elem_of_In in Hin. apply in_flat_map in Hin. destruct Hin as (f & _ & Hg).
    unfold createInputField in Hg.
    destruct (isKeyField keyFields (iv_name f)
              || default false (isNonNullType ∘ fd_type
                                <$> findField (def_fields definition) (iv_name f))) eqn:Hreq.
    + destruct Hg as [<-|[]]. simpl. by rewrite Hreq.
    + destruct (bool_decide _); [|done]. destruct Hg as [<-|[]]. simpl. by rewrite Hreq.
  - assert (forall r1 r2 : InputObjectTypeDefinitionNode,
              in_name r1 = in_name r2 -> in_fields r1 = in_fields r2 -> r1 = r2) as Heq
      by (intros [] []; simpl; congruence).
    apply Heq; [done|].
    rewrite (replaceCreateInput_fields definition (replaceCreateInput _ _ _)).
    rewrite replaceCreateInput_fields.
    assert (forall gs,
              Forall (fun g => createInputField definition keyFields g = [g]) gs ->
              flat_map (createInputField definition keyFields) gs = gs) as Hfix.
    { induction 1 as [|g gs Hg _ IH]; [done|]. simpl. by rewrite Hg, IH. }
    apply Hfix. apply Forall_forall. intros g Hin. apply list_elem_of_In in Hin.
    apply in_flat_map in Hin.
    destruct Hin as (f & _ & Hg). apply list_elem_of_In in Hg.
    by eapply createInputField_again.
Qed.

(** X18: the rewrite of the delete input either gives the input with one
    required field for each key field, in the order of the key fields and
    whatever fields it had, or it throws a [TypeError], and it throws exactly
    when the type has no field of the name of some key field. *)
Theorem replaceDeleteInput_result definition input keyFields :
  match replaceDeleteInput definition input keyFields with
  | Ok deleted =>
      in_name deleted = in_name input
      /\ in_fields deleted = map (requiredKeyArgument definition) keyFields
      /\ Forall (fun k => is_Some (findField (def_fields definition) k)) keyFields
  | Err e =>
      e = TypeError
      /\ exists k, k ∈ keyFields /\ findField (def_fields definition) k = None
  end.
Proof.
  unfold replaceDeleteInput, primaryIdFields.
  assert (match
            mapR (fun keyFieldName =>
                    rbind (typeOfFound definition keyFieldName) (fun keyType =>
                    Ok (makeInputValueDefinition keyFieldName
                          (makeNonNullType (makeNamedType (getBaseType keyType))))))
                 keyFields
          with
          | Ok fs =>
              fs = map (requiredKeyArgument definition) keyFields
              /\ Forall (fun k => is_Some (findField (def_fields definition) k)) keyFields
          | Err e =>
              e = TypeError
              /\ exists k, k ∈ keyFields /\ findField (def_fields definition) k = None
          end) as Hmap.
  { induction keyFields as [|k ks IH]; [done|]. simpl.
    unfold typeOfFound at 1, requiredKeyArgument at 1.
    destruct (findField (def_fields definition) k) as [keyField|] eqn:Hk; simpl.
    - destruct (mapR _ ks) as [fs|e]; simpl.
      + destruct IH as [-> Hall]. split; [done|]. constructor; [by eexists|done].
      + destruct IH as [-> (k' & Hin & Hnone)]. split; [done|].
        exists k'. split; [by right|done].
    - split; [done|]. exists k. split; [by left|done]. }
  destruct (mapR _ keyFields) as [fs|e]; simpl; [|done].
  destruct Hmap as [-> Hall]. done.
Qed.

(** ** The key snippet and the key-condition input *)

(** X19: for a directive whose derived hash and range attributes have
    different names, the key object of the snippet has exactly the attribute
    names of the derived key schema as its keys, in that order; it is not
    built only for an empty field list, where the error is that a [@key]
    must include a field. *)
Theorem modelObjectKey_keys args isMutation :
  distinctKeyNames args ->
  match modelObjectKey args isMutation with
  | Ok key =>
      exists o, key = Vtl.obj o /\ map fst o = omap ks_AttributeName (keySchema args)
  | Err e =>
      fields args = []
      /\ e = InvalidDirectiveError "@key directives must include at least one field."
  end.
Proof.
  unfold distinctKeyNames, modelObjectKey, keySchema.
  destruct (fields args) as [|f0 [|f1 [|f2 rest]]]; simpl; intros Hdistinct.
  - done.
  - by eexists.
  - apply NoDup_cons in Hdistinct as [Hne _]. rewrite list_elem_of_singleton in Hne.
    eexists. split; [done|]. unfold js_object. simpl.
    by rewrite decide_False by done.
  - apply NoDup_cons in Hdistinct as [Hne _]. rewrite list_elem_of_singleton in Hne.
    eexists. split; [done|]. unfold js_object. simpl.
    by rewrite decide_False by done.
Qed.

(** X20: registering the key-condition input writes only the types, keeps
    every type the context has (a type of the input's name is not
    overwritten), and does nothing when it is done again. *)
Theorem key_condition_input_added_once definition directive ctx :
  let ctx' := (addKeyConditionInputs definition directive ctx).1 in
  resources ctx' = resources ctx
  /\ stackMapping ctx' = stackMapping ctx
  /\ nodeMap ctx ⊆ nodeMap ctx'
  /\ (addKeyConditionInputs definition directive ctx').1 = ctx'.
Proof.
  unfold addKeyConditionInputs. cbv zeta.
  destruct (1 <? length (fields (dir_arguments directive)))%nat;
    [|by repeat split].
  run.
  match goal with
  | |- context [match ?r with Ok _ => _ | Err _ => _ end] => destruct r as [input|e]
  end; simpl; [|by repeat split].
  destruct (nodeMap ctx !! in_name input) as [existing|] eqn:Hexisting; simpl.
  - rewrite Hexisting. by repeat split.
  - rewrite lookup_insert_eq. simpl. repeat split.
    by apply insert_subseteq.
Qed.

End KeyMore.

(** ** What a directive leaves of the context *)

Section Frames.
Context `{External}.

Lemma preserves_bind {A B} (R : TransformerContext -> TransformerContext -> Prop)
    `{!Transitive R} (m : M A) (k : A -> M B) :
  preserves R m -> (forall a, preserves R (k a)) -> preserves R (bind m k).
Proof.
  intros Hm Hk ctx. unfold bind. specialize (Hm ctx).
  destruct (m ctx) as [ctx' [a|e]]; simpl in *; [|done].
  etrans; [exact Hm|apply Hk].
Qed.

Lemma preserves_pure {A} (R : TransformerContext -> TransformerContext -> Prop)
    `{!Reflexive R} (m : M A) :
  (forall ctx, (m ctx).1 = ctx) -> preserves R m.
Proof. intros Hm ctx. by rewrite Hm. Qed.

(** Splits a computation into its steps, down to the writes. *)
Ltac steps :=
  repeat match goal with
    | |- preserves _ (bind _ _) => apply preserves_bind; [apply _ | | intros ?]
    | |- preserves _ (if ?b then _ else _) => destruct b
    | |- preserves _ (match ?x with _ => _ end) => destruct x
    | |- preserves _ _ => apply preserves_pure; [apply _ | intros ?; reflexivity]
    end.

#[local] Instance onlyResource_preorder id : PreOrder (onlyResource id).
Proof.
  split.
  - intros ctx. by repeat split.
  - intros c1 c2 c3 (Hn & Hq & Hs & Hr) (Hn' & Hq' & Hs' & Hr').
    repeat split; try congruence. intros id' Hne. by rewrite Hr', Hr.
Qed.

Lemma writeResource_onlyResource id r : preserves (onlyResource id) (writeResource id r).
Proof.
  intros ctx. repeat split; simpl. intros id' Hne. by rewrite lookup_insert_ne.
Qed.

(** X9: updating the index structures for a directive writes nothing but the
    table resource of the type: the types, the other resources, the name of
    the query type and the stack mapping are as before, whether the update
    returns or throws. *)
Theorem index_update_writes_table_only definition directive :
  preserves (onlyResource (ModelTableResourceID (def_name definition)))
    (updateIndexStructures definition directive).
Proof.
  unfold updateIndexStructures, replacePrimaryKey, appendSecondaryIndex.
  destruct (isPrimaryKey directive); cbv zeta; steps;
    apply writeResource_onlyResource.
Qed.

#[local] Instance grows_preorder : PreOrder grows.
Proof.
  split.
  - intros ctx. by repeat split.
  - intros c1 c2 c3 (Hr & Hn & Hq & Hs) (Hr' & Hn' & Hq' & Hs').
    repeat split; try (etrans; eassumption); congruence.
Qed.

Lemma setResource_grows id r : preserves grows (setResource id r).
Proof.
  intros ctx. repeat split; simpl; try done. rewrite dom_insert_L. set_solver.
Qed.

Lemma putType_grows t : preserves grows (putType t).
Proof.
  intros ctx. repeat split; simpl; try done. rewrite dom_insert_L. set_solver.
Qed.

Lemma addToStackMapping_grows typeName pattern :
  preserves grows (addToStackMapping typeName pattern).
Proof. intros ctx. repeat split; simpl; try done. apply dom_insert_subseteq. Qed.

(** X10: applying a [@key] directive never removes a resource or a type from
    the context, never changes the name of the query type, and leaves every
    pattern of the stack mapping mapped, whether it returns or throws. *)
Theorem object_never_removes definition directive :
  preserves grows (object definition directive).
Proof.
  unfold object, updateIndexStructures, replacePrimaryKey, appendSecondaryIndex,
    updateSchema, updateQueryFields, updateGetField, updateListField, ensureQueryField,
    updateInputObjects, updateResolvers, prependSnippet, addKeyConditionInputs, addInput,
    writeResource.
  cbv zeta. steps;
    first [apply setResource_grows | apply putType_grows | apply addToStackMapping_grows].
Qed.

Lemma string_append_assoc (a b c : string) : (a +:+ b) +:+ c = a +:+ b +:+ c.
Proof.
  induction a as [|x a IH]; [done|].
  change (String x ((a +:+ b) +:+ c) = String x (a +:+ b +:+ c)). by rewrite IH.
Qed.

#[local] Instance templateExtended_preorder : PreOrder templateExtended.
Proof.
  split.
  - intros r. split; [done|]. by exists EmptyString.
  - intros r1 r2 r3 [Hsame [front Hfront]] [Hsame' [front' Hfront']].
    split; [congruence|]. exists (front' +:+ front).
    rewrite string_append_assoc. congruence.
Qed.

#[local] Instance templatesExtended_preorder : PreOrder templatesExtended.
Proof.
  split.
  - intros ctx. repeat split. intros id. by destruct (resources ctx !! id).
  - intros c1 c2 c3 (Hn & Hq & Hs & Hr) (Hn' & Hq' & Hs' & Hr').
    repeat split; try congruence. intros id.
    specialize (Hr id). specialize (Hr' id).
    destruct (resources c1 !! id), (resources c2 !! id), (resources c3 !! id);
      try done. by etrans.
Qed.

Lemma prependSnippet_extends id snippet :
  preserves templatesExtended (prependSnippet id snippet).
Proof.
  intros ctx. unfold prependSnippet, bind, getResource, reads, lift. simpl.
  destruct (resources ctx !! id) as [r|] eqn:Hr; simpl; [|reflexivity].
  destruct (snippet ctx) as [text|e]; simpl; [|reflexivity].
  repeat split; simpl. intros id'.
  destruct (decide (id = id')) as [<-|Hne].
  - rewrite lookup_insert_eq, Hr. split; [done|]. simpl.
    exists (text +:+ nl). by rewrite string_append_assoc.
  - rewrite lookup_insert_ne by done. by destruct (resources ctx !! id').
Qed.

(** X11: for an unnamed directive, updating the resolvers only puts text in
    front of the request mapping templates of resolvers that exist: no
    resource is added or removed, every other property of every resource and
    the types are as before, and each template ends with its old text,
    whether the update returns or throws. *)
Theorem primary_resolvers_extended definition directive :
  isPrimaryKey directive = true ->
  preserves templatesExtended (updateResolvers definition directive).
Proof.
  intros Hprim. unfold updateResolvers. rewrite Hprim. cbv zeta.
  steps; apply prependSnippet_extends.
Qed.

End Frames.

(** ** The blank nested template *)

Section BlankMore.
Variable AppSyncApiId : string.
Variable StringParameter : list (string * json) -> json.

Lemma obj_get_js_set k k' v o :
  obj_get k (js_set k' v o) = if decide (k' = k) then Some v else obj_get k o.
Proof.
  induction o as [|[k0 v0] o IH]; simpl; [done|].
  destruct (decide (k0 = k')) as [->|Hne0]; simpl.
  - by destruct (decide (k' = k)).
  - rewrite IH. destruct (decide (k0 = k)) as [->|Hne]; [|done].
    by rewrite decide_False by congruence.
Qed.

Lemma obj_get_snoc k l k' v :
  obj_get k (l ++ [(k', v)])
  = match obj_get k l with
    | Some w => Some w
    | None => if decide (k' = k) then Some v else None
    end.
Proof.
  induction l as [|[k0 v0] l IH]; simpl; [done|].
  by destruct (decide (k0 = k)).
Qed.

Lemma obj_get_foldl_js_set k l o :
  obj_get k (foldl (fun o kv => js_set kv.1 kv.2 o) o l)
  = match obj_get k (reverse l) with
    | Some v => Some v
    | None => obj_get k o
    end.
Proof.
  revert o. induction l as [|[k' v] l IH]; intros o; simpl; [done|].
  rewrite IH, reverse_cons, obj_get_snoc, obj_get_js_set. simpl.
  destruct (obj_get k (reverse l)); [done|]. by destruct (decide (k' = k)).
Qed.

Lemma js_set_keys {A} k (v : A) o :
  NoDup (map fst o) -> NoDup (map fst (js_set k v o)).
Proof.
  intros Hnd.
  induction o as [|[k1 v1] o IH]; simpl.
  - apply NoDup_singleton.
  - apply NoDup_cons in Hnd as [Hnotin Hnd]. simpl in Hnotin.
    destruct (decide (k1 = k)) as [->|Hne]; simpl.
    + by apply NoDup_cons.
    + apply NoDup_cons. split; [|by apply IH].
      intros Hk1. apply Hnotin. clear IH Hnd Hnotin.
      induction o as [|[k2 v2] o IH]; simpl in *.
      * apply list_elem_of_singleton in Hk1. congruence.
      * destruct (decide (k2 = k)) as [->|Hne2]; simpl in *; [done|].
        apply elem_of_cons in Hk1 as [->|Hk1]; [apply elem_of_cons; tauto|].
        apply elem_of_cons. right. by apply IH.
Qed.

Lemma js_object_keys {A} (entries : list (string * A)) :
  NoDup (map fst (js_object entries)).
Proof.
  unfold js_object.
  assert (forall o : list (string * A),
            NoDup (map fst o) ->
            NoDup (map fst (foldl (fun o kv => js_set kv.1 kv.2 o) o entries))) as Hloop.
  { induction entries as [|kv entries IH]; intros o Hnd; simpl; [done|].
    apply IH. by apply js_set_keys. }
  apply Hloop, NoDup_nil_2.
Qed.




(** X23: the parameter section of a blank nested template is an object with
    distinct keys in which a parameter of the caller is found under its name
    (the later entry, if the caller's list names it twice), and the API id
    parameter holds the built-in description unless the caller passes a
    parameter of that name, which then takes its place. *)
Theorem blankNestedTemplate_parameters params :
  match blankNestedTemplate AppSyncApiId StringParameter params with
  | JObj sections =>
      exists parameters,
        obj_get "Parameters" sections = Some (JObj parameters)
        /\ NoDup (map fst parameters)
        /\ forall k,
             obj_get k parameters
             = match obj_get k (reverse params) with
               | Some v => Some v
               | None =>
                   if decide (AppSyncApiId = k) then
                     Some (StringParameter
                             [("Description",
                               JStr "The id of the AppSync API associated with this project.")])
                   else None
               end
  | _ => False
  end.
Proof.
  simpl. eexists. split; [reflexivity|]. split; [apply js_object_keys|].
  intros k. unfold blankParameters, js_object. simpl.
  rewrite obj_get_foldl_js_set. simpl.
  destruct (obj_get k (reverse params)); [done|].
  by destruct (decide (AppSyncApiId = k)).
Qed.

End BlankMore.

(** ** Setting a flag of the read-authorization gate *)

(** X22: after the snippet that marks an operation as not protected has run,
    the read gate lets the request continue, whatever the other flags are:
    the snippet sets the flag the gate reads first. *)
Theorem not_auth_protected_passes_gate
    (notAuthProtected staticGroup dynamicGroup owner : string) (flags : gmap string bool) :
  exists flags',
    AuthMore.assign flags (AuthMore.isNotAuthProtectedSnippet notAuthProtected) = Some flags'
    /\ Auth.run flags'
         (Auth.throwIfUnauthorizedForReadOperations
            notAuthProtected staticGroup dynamicGroup owner)
       = Some Auth.Continue.
Proof.
  eexists. split; [reflexivity|].
  unfold Auth.run, Auth.throwIfUnauthorizedForReadOperations. simpl.
  rewrite lookup_insert_eq.
  destruct (<[notAuthProtected:=true]> flags !! staticGroup) as [[]|],
    (<[notAuthProtected:=true]> flags !! dynamicGroup) as [[]|],
    (<[notAuthProtected:=true]> flags !! owner) as [[]|]; reflexivity.
Qed.

(** ** The further properties on the sample schemas *)

Section MoreSamples.
Import Examples MoreExamples.
#[local] Existing Instance sampleExternal.

Lemma validated_primary_is_found_witness :
  compositeKey ∈ def_directives compositeType
  /\ isPrimaryKey compositeKey = true
  /\ validate compositeType compositeKey modelContext = Ok tt
  /\ exists found,
       getPrimaryKey compositeType = Some found /\ dir_ref found = dir_ref compositeKey.
Proof.
  assert (compositeKey ∈ def_directives compositeType) as Hin.
  { apply list_elem_of_In. right. left. reflexivity. }
  assert (validate compositeType compositeKey modelContext = Ok tt) as Hv by reflexivity.
  split; [exact Hin|]. repeat (split; [reflexivity|]).
  exact (validated_primary_is_found compositeType compositeKey modelContext
           Hin eq_refl eq_refl Hv).
Defined.

Lemma key_without_model_witness :
  validate compositeType compositeKey emptyContext = Ok tt
  /\ tableOf emptyContext compositeType = None
  /\ object compositeType compositeKey emptyContext
     = (emptyContext,
        Err (InvalidDirectiveError
          "The @key directive may only be added to object definitions annotated with @model.")).
Proof.
  assert (validate compositeType compositeKey emptyContext = Ok tt) as Hv by reflexivity.
  assert (tableOf emptyContext compositeType = None) as Hnone by reflexivity.
  split; [exact Hv|]. split; [exact Hnone|].
  exact (key_without_model compositeType compositeKey emptyContext
           Hv ltac:(discriminate) Hnone).
Defined.

Lemma single_field_key_witness :
  validate indexedIdType emailKey modelContext = Ok tt
  /\ keySchema (dir_arguments emailKey)
     = [ {| ks_AttributeName := Some "email"; ks_KeyType := HASH |} ]
  /\ exists t0,
       fieldTyped indexedIdType modelContext "email" t0
       /\ attributeDefinitions (dir_arguments emailKey) indexedIdType modelContext
          = Ok [ {| ad_AttributeName := "email"; ad_AttributeType := t0 |} ].
Proof.
  assert (validate indexedIdType emailKey modelContext = Ok tt) as Hv by reflexivity.
  split; [exact Hv|].
  exact (single_field_key indexedIdType emailKey modelContext "email" eq_refl Hv).
Defined.

Lemma two_field_key_witness :
  validate secondaryFirstType emailCreatedAt modelContext = Ok tt
  /\ keySchema (dir_arguments emailCreatedAt)
     = [ {| ks_AttributeName := Some "email"; ks_KeyType := HASH |};
         {| ks_AttributeName := Some "createdAt"; ks_KeyType := RANGE |} ]
  /\ exists t0 t1,
       fieldTyped secondaryFirstType modelContext "email" t0
       /\ fieldTyped secondaryFirstType modelContext "createdAt" t1
       /\ attributeDefinitions (dir_arguments emailCreatedAt) secondaryFirstType modelContext
          = Ok [ {| ad_AttributeName := "email"; ad_AttributeType := t0 |};
                 {| ad_AttributeName := "createdAt"; ad_AttributeType := t1 |} ].
Proof.
  assert (validate secondaryFirstType emailCreatedAt modelContext = Ok tt) as Hv
    by reflexivity.
  split; [exact Hv|].
  exact (two_field_key secondaryFirstType emailCreatedAt modelContext
           "email" "createdAt" eq_refl Hv).
Defined.

Lemma primary_resolvers_extended_witness :
  isPrimaryKey compositeKey = true
  /\ preserves templatesExtended (updateResolvers compositeType compositeKey).
Proof.
  split; [reflexivity|].
  exact (primary_resolvers_extended compositeType compositeKey eq_refl).
Defined.

Lemma secondary_index_only_adds_witness :
  isPrimaryKey testsByEmail = false
  /\ validate secondaryOnlyType testsByEmail modelContext = Ok tt
  /\ tableOf modelContext secondaryOnlyType = Some modelTable
  /\ exists new,
       tableOf (updateIndexStructures secondaryOnlyType testsByEmail modelContext).1
               secondaryOnlyType = Some new
       /\ KeySchema new = KeySchema modelTable
       /\ length (default [] (LocalSecondaryIndexes new))
          + length (default [] (GlobalSecondaryIndexes new)) = 1.
Proof.
  assert (validate secondaryOnlyType testsByEmail modelContext = Ok tt) as Hv by reflexivity.
  repeat (split; [reflexivity|]).
  destruct (secondary_index_only_adds secondaryOnlyType testsByEmail modelContext modelTable
              eq_refl Hv ltac:(discriminate) eq_refl)
    as (new & Hnew & Hkeys & _ & _ & Hlen & _).
  exists new. split; [exact Hnew|]. split; [exact Hkeys|]. exact Hlen.
Defined.

Lemma replaced_hash_is_partition_key_witness :
  getPrimaryKey compositeType = Some compositeKey
  /\ validate compositeType compositeKey modelContext = Ok tt
  /\ tableOf modelContext compositeType = Some modelTable
  /\ exists new,
       tableOf (updateIndexStructures compositeType compositeKey modelContext).1
               compositeType = Some new
       /\ tableHashName new = Some "email".
Proof.
  assert (validate compositeType compositeKey modelContext = Ok tt) as Hv by reflexivity.
  repeat (split; [reflexivity|]).
  exact (replaced_hash_is_partition_key compositeType compositeKey modelContext modelTable
           eq_refl Hv ltac:(discriminate) eq_refl
           (ex_intro _ idAttribute eq_refl) (ex_intro _ idKey eq_refl)).
Defined.

Lemma get_field_arguments_replaced_witness :
  isPrimaryKey compositeKey = true
  /\ validate compositeType compositeKey modelContext = Ok tt
  /\ exists getField,
       findResolverField (def_fields queryType) (resolver "getTest") = Some getField
       /\ updateGetField compositeType compositeKey modelContext
          = putType (ObjectTypeDefinition
                       (withFields queryType
                          (replaceField (def_fields queryType)
                             (withArguments getField
                                [ argument "email" (required "String");
                                  argument "kind" (required "Int");
                                  argument "date" (required "AWSDateTime") ]))))
              modelContext.
Proof.
  assert (validate compositeType compositeKey modelContext = Ok tt) as Hv by reflexivity.
  repeat (split; [reflexivity|]).
  eexists. split; [reflexivity|].
  exact (get_field_arguments_replaced compositeType compositeKey modelContext
           (resolver "getTest") queryType _ eq_refl Hv eq_refl eq_refl eq_refl).
Defined.

Lemma query_field_appended_witness :
  isPrimaryKey byEmailQuery = false
  /\ truthy_string (queryField (dir_arguments byEmailQuery)) = true
  /\ validate queryFieldType byEmailQuery modelContext = Ok tt
  /\ ensureQueryField queryFieldType byEmailQuery modelContext
     = putType (ObjectTypeDefinition
                  (withFields queryType
                     (def_fields queryType
                      ++ [makeConnectionField "testsByEmail" "Test"
                            (listArguments (fun base => makeNonNullType (makeNamedType base))
                               queryFieldType ["email"; "createdAt"])])))
         modelContext.
Proof.
  assert (validate queryFieldType byEmailQuery modelContext = Ok tt) as Hv by reflexivity.
  repeat (split; [reflexivity|]).
  exact (query_field_appended queryFieldType byEmailQuery modelContext queryType
           eq_refl eq_refl Hv eq_refl).
Defined.

Lemma mergeReferenceMaps_plain_monoid_witness :
  plain {[ "Foo" := [["Resources"; "B"]] ]}
  /\ plain {[ "Bar" := [["Outputs"; "C"]] ]}
  /\ mergeReferenceMaps ∅ {[ "Foo" := [["Resources"; "B"]] ]}
     = Ok {[ "Foo" := [["Resources"; "B"]] ]}
  /\ exists abc,
       rbind (mergeReferenceMaps {[ "constructor" := [["Resources"; "A"]] ]}
                                 {[ "Foo" := [["Resources"; "B"]] ]})
             (fun ab => mergeReferenceMaps ab {[ "Bar" := [["Outputs"; "C"]] ]})
       = Ok abc
       /\ abc !!! "Foo" = [["Resources"; "B"]].
Proof.
  assert (plain {[ "Foo" := [["Resources"; "B"]] ]}) as Hb
    by (apply plain_singleton; reflexivity).
  assert (plain {[ "Bar" := [["Outputs"; "C"]] ]}) as Hc
    by (apply plain_singleton; reflexivity).
  split; [exact Hb|]. split; [exact Hc|].
  destruct (mergeReferenceMaps_plain_monoid {[ "constructor" := [["Resources"; "A"]] ]}
              _ _ Hb Hc) as (Hleft & _ & abc & Habc & _ & Hlists).
  split; [exact Hleft|]. exists abc. split; [exact Habc|].
  rewrite Hlists. reflexivity.
Defined.


Lemma modelObjectKey_keys_witness :
  distinctKeyNames (dir_arguments compositeKey)
  /\ exists o,
       modelObjectKey (dir_arguments compositeKey) true = Ok (Vtl.obj o)
       /\ map fst o = ["email"; "kind#date"].
Proof.
  assert (distinctKeyNames (dir_arguments compositeKey)) as Hdistinct.
  { unfold distinctKeyNames. change (NoDup ["email"; "kind#date"]).
    apply NoDup_cons. split.
    - rewrite list_elem_of_singleton. discriminate.
    - apply NoDup_singleton. }
  split; [exact Hdistinct|].
  pose proof (modelObjectKey_keys (dir_arguments compositeKey) true Hdistinct) as Hkeys.
  destruct (modelObjectKey (dir_arguments compositeKey) true) as [key|e].
  - destruct Hkeys as (o & -> & Hkeys). exists o. split; [reflexivity|exact Hkeys].
  - destruct Hkeys as [Hnil _]. discriminate Hnil.
Defined.

End MoreSamples.
